(** * The TINY lexer (lexer.c): line buffer manager and token scanner

    A shallow embedding of the scanner of the TINY compiler front end
    ([getNextChar], [ungetNextChar], [reservedLookup], [getToken]) together
    with the driver loop of main.c, and the properties of the specification
    that were checked against it.

    Conventions of the embedding.
    - A [char] is a byte, represented by [ascii]; the [int] that the C code
      manipulates is a [Z]. Plain [char] is signed, as it is on x86-64: the
      value of a character read from [lineBuf] is in -128..127, the bytes
      from 128 on are negative, and the byte 255 has the value -1, which is
      also the value of [EOF].
    - The global variables of the line buffer manager ([lineBuf], [linepos],
      [bufsize], [EOF_flag], [lineno]) and the unread part of the [source]
      stream are the fields of the record [scanner]; every function that
      touches them takes and returns a [scanner].
    - The while loop of [getToken] is run with fuel: one unit per iteration.
      [None] means that the loop is still running when the fuel is spent.
    - The [listing] stream is write only (source echo, token trace) and is
      not part of the state. *)

From Stdlib Require Import ZArith Ascii String List Bool Lia.
Import ListNotations.
Local Open Scope Z_scope.

(** ** Token kinds and DFA states *)

(** Modelled from the spec: the enumeration TokenType of globals.h is missing;
    its constructors are the token kinds that lexer.c names, which are the
    kinds the specification lists (end-of-file, error, the eight reserved
    words, identifier, number, assignment, the six operators, parentheses,
    semicolon). *)
Inductive TokenType : Set :=
  | ENDFILE | ERROR
  | IF | THEN | ELSE | END | REPEAT | UNTIL | READ | WRITE
  | ID | NUM
  | ASSIGN | EQ | LT | PLUS | MINUS | TIMES | OVER | LPAREN | RPAREN | SEMI.

Definition TokenType_eqb (a b : TokenType) : bool :=
  match a, b with
  | ENDFILE, ENDFILE | ERROR, ERROR | IF, IF | THEN, THEN | ELSE, ELSE
  | END, END | REPEAT, REPEAT | UNTIL, UNTIL | READ, READ | WRITE, WRITE
  | ID, ID | NUM, NUM | ASSIGN, ASSIGN | EQ, EQ | LT, LT | PLUS, PLUS
  | MINUS, MINUS | TIMES, TIMES | OVER, OVER | LPAREN, LPAREN
  | RPAREN, RPAREN | SEMI, SEMI => true
  | _, _ => false
  end.

(** states in lexer DFA *)
Inductive StateType : Set :=
  | START | INASSIGN | INCOMMENT | INNUM | INID | DONE.

(** ** Characters *)

Definition EOF : Z := -1.

(** The value of a [char] read from [lineBuf], as an [int]. Plain [char] is
    a signed type on the platform the program is built for (x86-64): the
    bytes 128 to 255 are the values -128 to -1, so that the byte 255 is -1,
    the value of [EOF]. *)
Definition int_of_char (c : ascii) : Z :=
  let n := Z.of_N (N_of_ascii c) in
  if n <? 128 then n else n - 256.

(** The cast [(char)c]. *)
Definition char_of_int (c : Z) : ascii := ascii_of_N (Z.to_N (c mod 256)).

(** [isdigit] and [isalpha] of <ctype.h>, in the C locale; no character
    with a negative value is a digit or a letter. *)
Definition isdigit (c : Z) : bool := (48 <=? c) && (c <=? 57).

Definition isalpha (c : Z) : bool :=
  ((65 <=? c) && (c <=? 90)) || ((97 <=? c) && (c <=? 122)).

(** Character constants. *)
Definition ch (a : ascii) : Z := int_of_char a.

Definition NUL : ascii := zero.
Definition newline : ascii := "010"%char.

(** A C string literal, as the list of its characters. *)
Definition lit (s : string) : list ascii := list_ascii_of_string s.

(** ** C strings held in arrays *)

(** [strlen]: the number of characters before the first NUL. *)
Fixpoint strlen (a : list ascii) : Z :=
  match a with
  | [] => 0
  | c :: a' => if Ascii.eqb c NUL then 0 else 1 + strlen a'
  end.

(** The C string held in an array: its characters up to the first NUL. *)
Fixpoint cstr (a : list ascii) : list ascii :=
  match a with
  | [] => []
  | c :: a' => if Ascii.eqb c NUL then [] else c :: cstr a'
  end.

Fixpoint list_ascii_eqb (a b : list ascii) : bool :=
  match a, b with
  | [], [] => true
  | x :: a', y :: b' => Ascii.eqb x y && list_ascii_eqb a' b'
  | _, _ => false
  end.

(** [streq a b] is [!strcmp(a, b)]: the two C strings are equal. *)
Definition streq (a b : list ascii) : bool := list_ascii_eqb (cstr a) (cstr b).

(** ** The source stream and fgets *)

(** [read_line n src]: read characters from [src] until [n] characters have
    been read or a newline has been read (the newline is kept); the result is
    the characters read and the rest of the stream. *)
Fixpoint read_line (n : nat) (src : list ascii) : list ascii * list ascii :=
  match n, src with
  | O, _ => ([], src)
  | _, [] => ([], [])
  | S n', c :: src' =>
      if Ascii.eqb c newline then ([c], src')
      else let (l, r) := read_line n' src' in (c :: l, r)
  end.

(** [fgets(buf, n, stream)]: at most [n - 1] characters are read; the result
    is [None] (a null pointer) when the stream is at end-of-file and no
    character was read. *)
Definition fgets (n : Z) (src : list ascii) : option (list ascii * list ascii) :=
  match src with
  | [] => None
  | _ :: _ => Some (read_line (Z.to_nat (n - 1)) src)
  end.

(** ** Line buffer manager *)

(** BUFLEN = length of the input buffer for source code lines *)
Definition BUFLEN : Z := 256.

Record scanner : Set := mkScanner {
  source : list ascii;   (* the characters of the file not read yet *)
  lineBuf : list ascii;  (* holds the current line *)
  linepos : Z;           (* current position in LineBuf *)
  bufsize : Z;           (* current size of buffer string *)
  EOF_flag : bool;       (* corrects ungetNextChar behavior on EOF *)
  lineno : Z             (* source line number (main.c) *)
}.

(** The state at the first call: the globals as they are initialised in
    lexer.c and main.c, and a freshly opened source file. *)
Definition initial_scanner (file : list ascii) : scanner :=
  {| source := file; lineBuf := []; linepos := 0; bufsize := 0;
     EOF_flag := false; lineno := 0 |}.

(** [lineBuf[i]] for [0 <= i]; the character after the last one of the line
    is the terminating NUL. The scanner never reads before the start of the
    array nor past the NUL (lemma [run_ops_wf]). *)
Definition char_at (buf : list ascii) (i : Z) : Z :=
  int_of_char (nth (Z.to_nat i) buf NUL).

(** The branch of [getNextChar] taken when [lineBuf] is exhausted. *)
Definition refill (s : scanner) : Z * scanner :=
  let lineno' := lineno s + 1 in
  match fgets (BUFLEN - 1) (source s) with
  | Some (line, rest) =>
      (char_at line 0,
       {| source := rest; lineBuf := line; linepos := 0 + 1;
          bufsize := strlen line; EOF_flag := EOF_flag s;
          lineno := lineno' |})
  | None =>
      (EOF,
       {| source := source s; lineBuf := lineBuf s; linepos := linepos s;
          bufsize := bufsize s; EOF_flag := true; lineno := lineno' |})
  end.

(** getNextChar fetches the next character from lineBuf, reading in a new
    line if lineBuf is exhausted *)
Definition getNextChar (s : scanner) : Z * scanner :=
  if negb (linepos s <? bufsize s) then refill s
  else
    (char_at (lineBuf s) (linepos s),
     {| source := source s; lineBuf := lineBuf s; linepos := linepos s + 1;
        bufsize := bufsize s; EOF_flag := EOF_flag s; lineno := lineno s |}).

(** ungetNextChar backtracks one character in lineBuf *)
Definition ungetNextChar (s : scanner) : scanner :=
  if negb (EOF_flag s) then
    {| source := source s; lineBuf := lineBuf s; linepos := linepos s - 1;
       bufsize := bufsize s; EOF_flag := EOF_flag s; lineno := lineno s |}
  else s.

(** ** Reserved words *)

(** lookup table of reserved words *)
Definition reservedWords : list (list ascii * TokenType) :=
  [ (lit "if", IF); (lit "then", THEN); (lit "else", ELSE); (lit "end", END);
    (lit "repeat", REPEAT); (lit "until", UNTIL); (lit "read", READ);
    (lit "write", WRITE) ].

(** Modelled from the spec: the constant MAXRESERVED of globals.h is missing;
    the table has eight entries, the eight reserved words of the
    specification. *)
Definition MAXRESERVED : nat := 8.

(** The loop [for (i = 0; i < MAXRESERVED; i++)] of [reservedLookup], from
    index [i], with [n] iterations left. *)
Fixpoint reservedLookup_from (n i : nat) (s : list ascii) : TokenType :=
  match n with
  | O => ID
  | S n' =>
      match nth_error reservedWords i with
      | Some (str, tok) =>
          if streq s str then tok else reservedLookup_from n' (S i) s
      | None => ID
      end
  end.

(** lookup an identifier to see if it is a reserved word; uses linear
    search *)
Definition reservedLookup (s : list ascii) : TokenType :=
  reservedLookup_from MAXRESERVED 0 s.

(** ** The token scanner *)

Section Scanner.

(** MAXTOKENLEN, the maximum length of a lexeme, is defined in globals.h,
    which is missing: it is a parameter of the scanner. [tokenString] is
    declared with [MAXTOKENLEN + 1] elements. *)
Variable MAXTOKENLEN : nat.

(** The switch on [state] in the body of the loop of [getToken], after
    [save = TRUE]: the new state, the new value of [currentToken], the value
    of [save], and the line buffer after the call of [ungetNextChar], if
    any. *)
Definition dfa_switch (state : StateType) (currentToken : TokenType) (c : Z)
    (s : scanner) : StateType * TokenType * bool * scanner :=
  match state with
  | INID =>
      if negb (isalpha c)
      then (* backup in the input *) (DONE, ID, false, ungetNextChar s)
      else (state, currentToken, true, s)
  | INNUM =>
      if negb (isdigit c)
      then (* backup in the input *) (DONE, NUM, false, ungetNextChar s)
      else (state, currentToken, true, s)
  | INASSIGN =>
      if c =? ch "="
      then (DONE, ASSIGN, true, s)
      else (* backup in the input *) (DONE, ERROR, false, ungetNextChar s)
  | INCOMMENT =>
      if c =? ch "}"
      then (START, currentToken, false, s)
      else (state, currentToken, false, s)
  | START =>
      if isdigit c then (INNUM, currentToken, true, s)
      else if isalpha c then (INID, currentToken, true, s)
      else if c =? ch "{" then (INCOMMENT, currentToken, false, s)
      else if (c =? ch " ") || (c =? ch "009") || (c =? ch "010")
              || (c =? ch "013") || (c =? ch "012") || (c =? ch "011")
      then (START, currentToken, false, s)
      else if c =? ch ":" then (INASSIGN, currentToken, true, s)
      else if c =? EOF then (DONE, ENDFILE, false, s)
      else if c =? ch "+" then (DONE, PLUS, false, s)
      else if c =? ch "-" then (DONE, MINUS, false, s)
      else if c =? ch "*" then (DONE, TIMES, false, s)
      else if c =? ch "/" then (DONE, OVER, false, s)
      else if c =? ch ";" then (DONE, SEMI, false, s)
      else if c =? ch "(" then (DONE, LPAREN, false, s)
      else if c =? ch ")" then (DONE, RPAREN, false, s)
      else if c =? ch "<" then (DONE, LT, false, s)
      else if c =? ch "=" then (DONE, EQ, false, s)
      else (DONE, ERROR, true, s)
  | DONE => (state, currentToken, true, s)
  end.

(** [if ((save) && (tokenStringIndex <= MAXTOKENLEN))
      tokenString[tokenStringIndex++] = (char)c;]
    The list is the characters stored so far, [tokenString[0]] to
    [tokenString[tokenStringIndex - 1]]; [tokenStringIndex] is its length. *)
Definition store (save : bool) (tokenString : list ascii) (c : Z) : list ascii :=
  if save && (length tokenString <=? MAXTOKENLEN)%nat
  then tokenString ++ [char_of_int c]
  else tokenString.

(** The result of a call of [getToken]: the token returned, the characters
    of [tokenString] before the terminating NUL that the call wrote (at index
    [tokenStringIndex], the length of the list), and the line buffer. *)
Definition token_result : Set := (TokenType * list ascii * scanner)%type.

(** [while (state != DONE) { ... }], entered with [state] different from
    [DONE]. *)
Fixpoint getToken_loop (fuel : nat) (state : StateType)
    (currentToken : TokenType) (tokenString : list ascii) (s : scanner)
    : option token_result :=
  match fuel with
  | O => None
  | S fuel' =>
      let (c, s1) := getNextChar s in
      let '(state', currentToken', save, s2) :=
        dfa_switch state currentToken c s1 in
      let tokenString' := store save tokenString c in
      match state' with
      | DONE =>
          let currentToken'' :=
            if TokenType_eqb currentToken' ID
            then reservedLookup tokenString'
            else currentToken' in
          Some (currentToken'', tokenString', s2)
      | _ => getToken_loop fuel' state' currentToken' tokenString' s2
      end
  end.

(** function getToken returns the next token in source file.
    [currentToken] is not initialised in the C code; the value given here is
    never read (lemma [getToken_loop_currentToken]). *)
Definition getToken (fuel : nat) (s : scanner) : option token_result :=
  getToken_loop fuel START ENDFILE [] s.

(** [n] successive calls of [getToken]: the tokens returned with their
    lexemes, in order. *)
Fixpoint getTokens (fuel : nat) (n : nat) (s : scanner)
    : option (list (TokenType * list ascii) * scanner) :=
  match n with
  | O => Some ([], s)
  | S n' =>
      match getToken fuel s with
      | None => None
      | Some (tok, str, s') =>
          match getTokens fuel n' s' with
          | None => None
          | Some (l, s'') => Some ((tok, str) :: l, s'')
          end
      end
  end.

End Scanner.

(** ** Sequences of line buffer operations *)

Inductive buf_op : Set := NextChar | PutBack.

Definition run_op (o : buf_op) (s : scanner) : scanner :=
  match o with
  | NextChar => snd (getNextChar s)
  | PutBack => ungetNextChar s
  end.

Definition run_ops (ops : list buf_op) (s : scanner) : scanner :=
  fold_left (fun s o => run_op o s) ops s.

(** At most one [PutBack] per character consumed: every [PutBack] comes
    directly after a [NextChar]. [got] tells whether the operation before
    the list was a [NextChar]. *)
Fixpoint disciplined (got : bool) (ops : list buf_op) : bool :=
  match ops with
  | [] => true
  | NextChar :: ops' => disciplined true ops'
  | PutBack :: ops' => got && disciplined false ops'
  end.

(** ** The character sequence presented by the line buffer *)

Definition nul_free (l : list ascii) : bool :=
  forallb (fun c => negb (Ascii.eqb c NUL)) l.

(** No character of [l] has the value of [EOF], that is, is the byte 255. *)
Definition eof_free (l : list ascii) : bool :=
  forallb (fun c => negb (int_of_char c =? EOF)) l.


(** The characters that are still to be delivered: the rest of the current
    line, then the rest of the file. *)
Definition remaining (s : scanner) : list ascii :=
  skipn (Z.to_nat (linepos s)) (lineBuf s) ++ source s.

(** The state of the line buffer is well formed: the cursor is within the
    line, the size is the length of the line, the text still to be read
    contains no NUL, and end-of-file has been signalled only with the file
    and the line both exhausted. *)
Definition wf (s : scanner) : Prop :=
  0 <= linepos s <= bufsize s /\
  bufsize s = Z.of_nat (length (lineBuf s)) /\
  nul_free (source s) = true /\
  (EOF_flag s = true -> source s = [] /\ linepos s = bufsize s).

(** [presents s l]: the line buffer is well formed and the characters that
    [getNextChar] is to deliver are those of [l], then end-of-file. *)
Definition presents (s : scanner) (l : list ascii) : Prop :=
  wf s /\ remaining s = l.

Section Stream.

Variable MAXTOKENLEN : nat.

(** The part of [dfa_switch] that does not depend on the line buffer: new
    state, new [currentToken] and [save]; and whether [ungetNextChar] is
    called. *)
Definition dfa_delta (state : StateType) (currentToken : TokenType) (c : Z)
    : StateType * TokenType * bool :=
  let '(state', currentToken', save, _) :=
    dfa_switch state currentToken c (initial_scanner []) in
  (state', currentToken', save).

Definition dfa_backup (state : StateType) (c : Z) : bool :=
  match state with
  | INID => negb (isalpha c)
  | INNUM => negb (isdigit c)
  | INASSIGN => negb (c =? ch "=")
  | _ => false
  end.

(** The character code seen by the DFA at the head of a character sequence. *)
Definition head_code (l : list ascii) : Z :=
  match l with
  | [] => EOF
  | a :: _ => int_of_char a
  end.

(** What is left of a character sequence after one iteration of the loop. *)
Definition after_step (state : StateType) (l : list ascii) : list ascii :=
  if dfa_backup state (head_code l) then l else tl l.

(** The token returned when the loop ends: the reserved word lookup. *)
Definition final_token (currentToken : TokenType) (tokenString : list ascii)
    : TokenType :=
  if TokenType_eqb currentToken ID then reservedLookup tokenString
  else currentToken.

(** The loop of [getToken] seen on the character sequence that the line
    buffer presents; [getToken_loop_refines] relates it to
    [getToken_loop]. *)
Fixpoint scan_loop (fuel : nat) (state : StateType) (currentToken : TokenType)
    (tokenString : list ascii) (l : list ascii)
    : option (TokenType * list ascii * list ascii) :=
  match fuel with
  | O => None
  | S fuel' =>
      let c := head_code l in
      let '(state', currentToken', save) := dfa_delta state currentToken c in
      let tokenString' := store MAXTOKENLEN save tokenString c in
      let l' := after_step state l in
      match state' with
      | DONE => Some (final_token currentToken' tokenString', tokenString', l')
      | _ => scan_loop fuel' state' currentToken' tokenString' l'
      end
  end.

(** The characters stored in [tokenString] when all those of [l] are
    saved. *)
Definition stores (tokenString : list ascii) (l : list ascii) : list ascii :=
  fold_left (fun ts c => store MAXTOKENLEN true ts (int_of_char c)) l
    tokenString.

End Stream.

(** Character classes of the DFA, on characters. *)
Definition is_letter (c : ascii) : bool := isalpha (int_of_char c).

Definition is_space (c : ascii) : bool :=
  let c := int_of_char c in
  (c =? ch " ") || (c =? ch "009") || (c =? ch "010")
  || (c =? ch "013") || (c =? ch "012") || (c =? ch "011").

Definition not_close (c : ascii) : bool := negb (Ascii.eqb c "}").

(** [is_blank false l]: the characters of [l] are white space and complete
    comments, what getToken discards before a token; [is_blank true l]: the
    same for characters read inside a comment. *)
Fixpoint is_blank (in_comment : bool) (l : list ascii) : bool :=
  match l with
  | [] => negb in_comment
  | c :: l' =>
      if in_comment then is_blank (not_close c) l'
      else if Ascii.eqb c "{" then is_blank true l'
      else is_space c && is_blank false l'
  end.

(** [comments_closed false l]: every comment opened in [l] is closed in [l];
    [comments_closed true l]: the same when [l] is read inside a comment. *)
Fixpoint comments_closed (in_comment : bool) (l : list ascii) : bool :=
  match l with
  | [] => negb in_comment
  | c :: l' =>
      if in_comment then comments_closed (not_close c) l'
      else comments_closed (Ascii.eqb c "{") l'
  end.

Definition in_comment (state : StateType) : bool :=
  match state with
  | INCOMMENT => true
  | _ => false
  end.

(** The values returned by [n] successive calls of [getNextChar]. *)
Fixpoint next_codes (n : nat) (s : scanner) : list Z :=
  match n with
  | O => []
  | S n' => let (c, s1) := getNextChar s in c :: next_codes n' s1
  end.

(** The file and the current line are both exhausted. *)
Definition exhausted (s : scanner) : Prop :=
  source s = [] /\ bufsize s <= linepos s.

(** A value of MAXTOKENLEN for the runs on concrete inputs; the general
    results hold for every value. *)
Definition sample_MAXTOKENLEN : nat := 40.

(** [char tokenString[MAXTOKENLEN + 1]]: the number of elements of the
    array. *)
Definition tokenString_size (MAXTOKENLEN : nat) : nat := MAXTOKENLEN + 1.

(** Two calls of [getToken] have the same outcome: neither returns, or both
    return the same token with the same lexeme and leave the same characters
    to be delivered. *)
Definition same_token (a b : option token_result) : Prop :=
  match a, b with
  | Some (tok1, str1, s1), Some (tok2, str2, s2) =>
      tok1 = tok2 /\ str1 = str2 /\ remaining s1 = remaining s2
  | None, None => True
  | _, _ => False
  end.

(** The characters of [l] are within one line. *)
Definition no_newline (l : list ascii) : bool :=
  forallb (fun c => negb (Ascii.eqb c newline)) l.





(** ** Character classes and single-character tokens *)

Definition is_digit (c : ascii) : bool := isdigit (int_of_char c).

(** The single-character tokens of START: the cases of [switch (c)] other
    than [EOF] and [default], with the token kind each one gives. *)
Definition operator_kind (c : ascii) : option TokenType :=
  if Ascii.eqb c "+" then Some PLUS
  else if Ascii.eqb c "-" then Some MINUS
  else if Ascii.eqb c "*" then Some TIMES
  else if Ascii.eqb c "/" then Some OVER
  else if Ascii.eqb c ";" then Some SEMI
  else if Ascii.eqb c "(" then Some LPAREN
  else if Ascii.eqb c ")" then Some RPAREN
  else if Ascii.eqb c "<" then Some LT
  else if Ascii.eqb c "=" then Some EQ
  else None.

(** The characters that START sends to the [default] case. The byte 255,
    whose value is that of [EOF], goes to [case EOF]. *)
Definition unrecognized (c : ascii) : bool :=
  negb (is_digit c) && negb (is_letter c) && negb (Ascii.eqb c "{")
  && negb (is_space c) && negb (Ascii.eqb c ":")
  && negb (int_of_char c =? EOF)
  && match operator_kind c with
     | Some _ => false
     | None => true
     end.

(** ** The stored lexeme *)

(** The token kinds that the reserved word lookup returns. *)
Definition is_word_kind (tok : TokenType) : bool :=
  match tok with
  | IF | THEN | ELSE | END | REPEAT | UNTIL | READ | WRITE | ID => true
  | _ => false
  end.

(** What [tokenString] holds, by kind of the token returned. *)
Definition lexeme_shape (MAXTOKENLEN : nat) (tok : TokenType)
    (str : list ascii) : Prop :=
  match tok with
  | NUM => str <> [] /\ forallb is_digit str = true
  | IF | THEN | ELSE | END | REPEAT | UNTIL | READ | WRITE | ID =>
      str <> [] /\ forallb is_letter str = true /\ tok = reservedLookup str
  | ASSIGN => str = firstn (S MAXTOKENLEN) (lit ":=")
  | ERROR => length str = 1%nat
  | _ => str = []
  end.

(** What [tokenString] holds at the head of the loop, by state. *)
Definition state_lexeme (state : StateType) (tokenString : list ascii) : Prop :=
  match state with
  | START | INCOMMENT => tokenString = []
  | INASSIGN => tokenString = lit ":"
  | INNUM => tokenString <> [] /\ forallb is_digit tokenString = true
  | INID => tokenString <> [] /\ forallb is_letter tokenString = true
  | DONE => False
  end.

(** ** The driver *)

(** main.c: [while (getToken() != ENDFILE);], with at most [calls] calls of
    getToken: the tokens returned, the last of which is the end-of-file
    token. *)
Fixpoint scan_file (MAXTOKENLEN : nat) (calls fuel : nat) (s : scanner)
    : option (list (TokenType * list ascii) * scanner) :=
  match calls with
  | O => None
  | S calls' =>
      match getToken MAXTOKENLEN fuel s with
      | None => None
      | Some (tok, str, s') =>
          if negb (TokenType_eqb tok ENDFILE)
          then match scan_file MAXTOKENLEN calls' fuel s' with
               | None => None
               | Some (toks, s'') => Some ((tok, str) :: toks, s'')
               end
          else Some ([(tok, str)], s')
      end
  end.

(** The bounds kept by every operation of the line buffer, for every
    file. *)
Definition within_bounds (s : scanner) : Prop :=
  0 <= linepos s <= bufsize s + 1 /\
  bufsize s = strlen (lineBuf s) /\
  Z.of_nat (length (lineBuf s)) + 1 < BUFLEN.

(** ** The listing *)



(** ** main.c *)

(** [strchr(s, c) != NULL], for a character [c] other than NUL. *)
Definition strchr (s : list ascii) (c : ascii) : bool :=
  existsb (Ascii.eqb c) (cstr s).

(** [char pgm[120]]: source code file name *)
Definition pgm_size : Z := 120.

(** What [strcpy], [strchr] and [strcat] write from the start of [pgm]: the
    argument, with the extension when it holds no dot. *)
Definition pgm_name (arg : list ascii) : list ascii :=
  if negb (strchr arg ".") then cstr arg ++ lit ".tny" else cstr arg.

(** The name of the file that [main] opens when it fits in [pgm]; [None]
    when [strcpy] or [strcat] writes past the end of [pgm]. *)
Definition source_name (arg : list ascii) : option (list ascii) :=
  if negb (strlen arg + 1 <=? pgm_size) then None
  else if negb (strchr arg ".") then
    if negb (strlen arg + strlen (lit ".tny") + 1 <=? pgm_size) then None
    else Some (cstr arg ++ lit ".tny")
  else Some (cstr arg).

(** How a run of [main] ends. *)
Inductive main_result : Set :=
  | usage_exit (prog : list ascii)     (* usage: %s <filename>; exit(1) *)
  | not_found_exit (pgm : list ascii)  (* File %s not found; exit(1) *)
  | loop_running (pgm : list ascii)    (* the loop has not ended *)
  | return_0 (pgm : list ascii) (tokens : list (TokenType * list ascii)).

(** [main], for the arguments [argv] (with [argc] the length of [argv]) and
    the files [fs] that [fopen] finds, by name; the loop makes at most
    [calls] calls of getToken, of at most [fuel] iterations each. Nothing
    in [main] checks the length of the argument: when the name does not fit
    in the 120 bytes of [pgm] ([source_name] gives [None]), [strcpy] or
    [strcat] writes past the end of the array and the run goes on with the
    whole name, as it does here. *)
Definition main (MAXTOKENLEN : nat) (fs : list ascii -> option (list ascii))
    (argv : list (list ascii)) (calls fuel : nat) : main_result :=
  if negb (length argv =? 2)%nat then usage_exit (nth 0 argv [])
  else
    let pgm := pgm_name (nth 1 argv []) in
    match fs pgm with
    | None => not_found_exit pgm
    | Some file =>
        match scan_file MAXTOKENLEN calls fuel (initial_scanner file) with
        | None => loop_running pgm
        | Some (tokens, _) => return_0 pgm tokens
        end
    end.

(** A file system with one file. *)
Definition one_file (name file : list ascii) (pgm : list ascii)
    : option (list ascii) :=
  if list_ascii_eqb pgm name then Some file else None.

(** Two states of the line buffer with the same characters still to be
    read: the same file position, and either the same line at the same
    cursor or both lines exhausted. *)
Definition same_text (s s' : scanner) : Prop :=
  source s = source s' /\
  ((bufsize s <= linepos s /\ bufsize s' <= linepos s') \/
   (lineBuf s = lineBuf s' /\ linepos s = linepos s' /\
    bufsize s = bufsize s')).




(** * Properties *)

(** Case analysis on the test of a conditional of the goal. *)
Ltac case_if :=
  match goal with
  | |- context [if ?b then _ else _] => destruct b
  end.


(** ** fgets and strlen *)

Lemma read_line_app n : forall src l r,
  read_line n src = (l, r) -> l ++ r = src.
Proof.
  induction n as [|n IH]; intros src l r H; simpl in H.
  - now inversion H.
  - destruct src as [|c src]; [now inversion H|].
    destruct (Ascii.eqb c newline); [now inversion H|].
    destruct (read_line n src) as [l0 r0] eqn:E.
    inversion H; subst. simpl. f_equal. now apply IH.
Qed.

Lemma read_line_length n : forall src l r,
  read_line n src = (l, r) -> (length l <= n)%nat.
Proof.
  induction n as [|n IH]; intros src l r H; simpl in H.
  - inversion H; simpl; lia.
  - destruct src as [|c src]; [inversion H; simpl; lia|].
    destruct (Ascii.eqb c newline); [inversion H; simpl; lia|].
    destruct (read_line n src) as [l0 r0] eqn:E.
    inversion H; subst. simpl. apply IH in E. lia.
Qed.

Lemma read_line_head n c src l r :
  read_line (S n) (c :: src) = (l, r) -> exists l', l = c :: l'.
Proof.
  simpl. destruct (Ascii.eqb c newline).
  - intros H; inversion H; now exists [].
  - destruct (read_line n src) as [l0 r0]. intros H; inversion H.
    now exists l0.
Qed.

Lemma nul_free_app l1 l2 :
  nul_free (l1 ++ l2) = true <-> nul_free l1 = true /\ nul_free l2 = true.
Proof.
  unfold nul_free. rewrite forallb_app, andb_true_iff. tauto.
Qed.

Lemma strlen_nul_free l :
  nul_free l = true -> strlen l = Z.of_nat (length l).
Proof.
  induction l as [|c l IH]; [reflexivity|].
  cbn [strlen nul_free forallb length]. fold (nul_free l).
  intros H. apply andb_true_iff in H as [Hc Hl].
  destruct (Ascii.eqb c NUL); [discriminate|].
  rewrite IH, Nat2Z.inj_succ by assumption. lia.
Qed.

Lemma cstr_nul_free l : nul_free l = true -> cstr l = l.
Proof.
  induction l as [|c l IH]; simpl; [reflexivity|].
  intros H. apply andb_true_iff in H as [Hc Hl].
  destruct (Ascii.eqb c NUL); [discriminate|].
  now rewrite IH.
Qed.

Lemma list_ascii_eqb_eq a : forall b, list_ascii_eqb a b = true <-> a = b.
Proof.
  induction a as [|x a IH]; intros [|y b]; simpl; try (split; congruence).
  rewrite andb_true_iff, Ascii.eqb_eq, IH. split.
  - intros [-> ->]; reflexivity.
  - intros H; inversion H; auto.
Qed.

(** ** The line buffer presents the text of the file *)

Lemma wf_initial file :
  nul_free file = true -> presents (initial_scanner file) file.
Proof.
  intros H. unfold presents, wf, remaining; simpl.
  repeat split; try lia; try assumption; discriminate.
Qed.

Lemma skipn_cons_nth (l : list ascii) : forall n c r,
  skipn n l = c :: r -> nth n l NUL = c /\ skipn (S n) l = r /\ (n < length l)%nat.
Proof.
  induction l as [|a l IH]; intros [|n] c r H; simpl in *; try discriminate.
  - inversion H; subst. repeat split; lia.
  - apply IH in H as (H1 & H2 & H3). repeat split; auto; lia.
Qed.

(** Reading a character when some are left: the character is delivered, the
    rest remains, and putting it back restores the sequence. *)
Lemma getNextChar_cons s c r :
  presents s (c :: r) ->
  exists s1, getNextChar s = (int_of_char c, s1) /\
             presents s1 r /\ presents (ungetNextChar s1) (c :: r) /\
             lineno (ungetNextChar s1) = lineno s1.
Proof.
  intros [(Hpos & Hsize & Hsrc & Heof) Hrem].
  unfold getNextChar, remaining in *.
  destruct (linepos s <? bufsize s) eqn:Hlt; simpl.
  - apply Z.ltb_lt in Hlt.
    assert (Hfl : EOF_flag s = false).
    { destruct (EOF_flag s); [|reflexivity]. destruct Heof; [reflexivity|lia]. }
    destruct (skipn (Z.to_nat (linepos s)) (lineBuf s)) as [|a tl0] eqn:Hsk.
    { exfalso. assert (Hl := f_equal (@length ascii) Hsk).
      rewrite length_skipn in Hl. simpl in Hl. lia. }
    simpl in Hrem. inversion Hrem; subst a r.
    apply skipn_cons_nth in Hsk as (Hn & Hs & Hb).
    eexists. split; [unfold char_at; rewrite Hn; reflexivity|].
    unfold presents, wf, remaining, ungetNextChar; simpl. rewrite Hfl; simpl.
    replace (Z.to_nat (linepos s + 1)) with (S (Z.to_nat (linepos s))) by lia.
    replace (linepos s + 1 - 1) with (linepos s) by lia.
    rewrite Hs.
    assert (Hs0 : skipn (Z.to_nat (linepos s)) (lineBuf s) = c :: tl0).
    { rewrite <- (firstn_skipn 1 (skipn (Z.to_nat (linepos s)) (lineBuf s))).
      rewrite skipn_skipn. simpl Nat.add.
      replace (1 + Z.to_nat (linepos s))%nat with (S (Z.to_nat (linepos s))) by lia.
      rewrite Hs.
      destruct (skipn (Z.to_nat (linepos s)) (lineBuf s)) as [|a0 t0] eqn:E.
      - exfalso. assert (Hl := f_equal (@length ascii) E).
        rewrite length_skipn in Hl. simpl in Hl. lia.
      - simpl. f_equal.
        assert (E' := E). apply skipn_cons_nth in E' as (E1 & _ & _). congruence. }
    rewrite Hs0.
    repeat split; try lia; try assumption; try discriminate; try reflexivity.
  - apply Z.ltb_ge in Hlt. assert (Heq : linepos s = bufsize s) by lia.
    rewrite skipn_all2 in Hrem by lia. simpl in Hrem.
    unfold refill, fgets. rewrite Hrem.
    change (Z.to_nat (BUFLEN - 1 - 1)) with 254%nat.
    destruct (read_line 254 (c :: r)) as [l rest] eqn:Hrl.
    assert (Happ := read_line_app _ _ _ _ Hrl).
    destruct (read_line_head _ _ _ _ _ Hrl) as [l' ->].
    rewrite Hrem in Hsrc. rewrite <- Happ in Hsrc.
    apply nul_free_app in Hsrc as [Hl Hrest].
    simpl in Happ. inversion Happ as [Hr].
    assert (Hfl : EOF_flag s = false).
    { destruct (EOF_flag s); [|reflexivity]. destruct Heof as [He _]; [reflexivity|].
      congruence. }
    eexists. split; [reflexivity|].
    unfold presents, wf, remaining, ungetNextChar; simpl EOF_flag; rewrite Hfl.
    cbn [negb linepos bufsize lineBuf source EOF_flag lineno].
    rewrite (strlen_nul_free _ Hl). simpl length. simpl.
    repeat split; try lia; try assumption; try discriminate; try reflexivity.
Qed.

Lemma getNextChar_nil s :
  presents s [] ->
  exists s1, getNextChar s = (EOF, s1) /\
             presents s1 [] /\ ungetNextChar s1 = s1 /\
             EOF_flag s1 = true /\ lineno s1 = lineno s + 1.
Proof.
  intros [(Hpos & Hsize & Hsrc & Heof) Hrem].
  unfold remaining in Hrem. apply app_eq_nil in Hrem as [Hsk Hs].
  assert (Hl := f_equal (@length ascii) Hsk).
  rewrite length_skipn in Hl. simpl in Hl.
  assert (Heq : linepos s = bufsize s) by lia.
  unfold getNextChar, refill. rewrite Hs, Heq, Z.ltb_irrefl. simpl.
  eexists. split; [reflexivity|].
  unfold presents, wf, remaining, ungetNextChar; simpl.
  rewrite <- Heq, Hsk. repeat split; try lia; try reflexivity.
Qed.

(** ** Chunks *)


Lemma fgets_Some src chunk rest :
  fgets (BUFLEN - 1) src = Some (chunk, rest) ->
  chunk ++ rest = src /\ (1 <= length chunk <= 254)%nat.
Proof.
  unfold fgets. destruct src as [|a src]; [discriminate|].
  change (Z.to_nat (BUFLEN - 1 - 1)) with 254%nat.
  destruct (read_line 254 (a :: src)) as [l r] eqn:Hrl.
  intros H. injection H as -> ->.
  split; [now apply read_line_app in Hrl|].
  pose proof (read_line_length _ _ _ _ Hrl).
  destruct (read_line_head _ _ _ _ _ Hrl) as [l' ->].
  cbn [length] in *. lia.
Qed.




(** ** The cursor of the line buffer *)

Lemma getNextChar_wf s :
  wf s ->
  wf (snd (getNextChar s)) /\
  (EOF_flag (snd (getNextChar s)) = true \/ 1 <= linepos (snd (getNextChar s))).
Proof.
  intros Hwf. destruct (remaining s) as [|c r] eqn:Hrem.
  - destruct (getNextChar_nil s (conj Hwf Hrem)) as (s1 & -> & [H1 _] & _ & Hfl & _).
    cbn [snd]. now split; [|left].
  - destruct (getNextChar_cons s c r (conj Hwf Hrem))
      as (s1 & -> & [H1 _] & [Hu _] & _).
    cbn [snd]. split; [exact H1|].
    destruct (EOF_flag s1) eqn:Hfl; [now left|right].
    destruct Hu as [Hpos _]. unfold ungetNextChar in Hpos.
    rewrite Hfl in Hpos. cbn [negb linepos] in Hpos. lia.
Qed.

Lemma ungetNextChar_wf s :
  wf s -> EOF_flag s = true \/ 1 <= linepos s -> wf (ungetNextChar s).
Proof.
  intros Hwf Hgot. unfold ungetNextChar.
  destruct (EOF_flag s) eqn:Hfl; cbn [negb]; [exact Hwf|].
  destruct Hgot as [Hgot|Hgot]; [discriminate|].
  destruct Hwf as (Hpos & Hsize & Hsrc & Heof).
  unfold wf; cbn [linepos bufsize lineBuf source EOF_flag].
  repeat split; try lia; try assumption; rewrite Hfl in *; discriminate.
Qed.

(** The invariant of a disciplined sequence of operations. *)
Lemma run_ops_wf ops : forall got s,
  wf s -> (got = true -> EOF_flag s = true \/ 1 <= linepos s) ->
  disciplined got ops = true ->
  wf (run_ops ops s).
Proof.
  induction ops as [|o ops IH]; intros got s Hwf Hgot Hd; [exact Hwf|].
  destruct o; cbn [disciplined] in Hd; cbn [run_ops fold_left run_op].
  - destruct (getNextChar_wf s Hwf) as [H1 H2].
    apply (IH true); auto.
  - apply andb_true_iff in Hd as [-> Hd].
    apply (IH false); [|discriminate|exact Hd].
    apply ungetNextChar_wf; auto.
Qed.

Lemma refill_lineno s : lineno (snd (refill s)) = lineno s + 1.
Proof.
  unfold refill.
  destruct (fgets (BUFLEN - 1) (source s)) as [[l r]|]; reflexivity.
Qed.

Lemma ungetNextChar_latched s n :
  EOF_flag s = true -> Nat.iter n ungetNextChar s = s.
Proof.
  intros H. induction n as [|n IH]; [reflexivity|].
  simpl. rewrite IH. unfold ungetNextChar. now rewrite H.
Qed.

Section ScannerProperties.

Variable MAXTOKENLEN : nat.

Lemma dfa_switch_split state currentToken c s :
  dfa_switch state currentToken c s =
  let '(state', currentToken', save) := dfa_delta state currentToken c in
  (state', currentToken', save,
   if dfa_backup state c then ungetNextChar s else s).
Proof.
  unfold dfa_delta. destruct state; simpl;
    repeat (case_if; simpl); reflexivity.
Qed.

(** The loop of [getToken] on a well formed line buffer runs as [scan_loop]
    on the characters that the buffer presents. *)
Lemma getToken_loop_refines fuel : forall state currentToken tokenString s l,
  presents s l ->
  match scan_loop MAXTOKENLEN fuel state currentToken tokenString l with
  | Some (tok, str, l') =>
      exists s', getToken_loop MAXTOKENLEN fuel state currentToken tokenString s
                 = Some (tok, str, s') /\ presents s' l'
  | None =>
      getToken_loop MAXTOKENLEN fuel state currentToken tokenString s = None
  end.
Proof.
  induction fuel as [|fuel IH]; intros state currentToken tokenString s l Hs;
    [reflexivity|].
  cbn [scan_loop getToken_loop].
  assert (Hstep : exists s1,
            getNextChar s = (head_code l, s1) /\
            presents (if dfa_backup state (head_code l)
                      then ungetNextChar s1 else s1)
                     (after_step state l)).
  { unfold after_step. destruct l as [|c r].
    - destruct (getNextChar_nil s Hs) as (s1 & E & H1 & Hu & _).
      exists s1. split; [exact E|]. rewrite Hu.
      now destruct (dfa_backup state (head_code [])).
    - destruct (getNextChar_cons s c r Hs) as (s1 & E & H1 & Hu & _).
      exists s1. split; [exact E|].
      now destruct (dfa_backup state (head_code (c :: r))). }
  destruct Hstep as (s1 & E & Hs2). rewrite E, dfa_switch_split.
  destruct (dfa_delta state currentToken (head_code l)) as [[state' tok'] save].
  destruct state'; try (apply IH; exact Hs2).
  eexists; split; [reflexivity|exact Hs2].
Qed.

(** [currentToken] is assigned before it is read: the value it has when the
    loop is entered does not matter. *)
Lemma dfa_switch_currentToken state tok1 tok2 c s :
  state <> DONE ->
  match dfa_switch state tok1 c s, dfa_switch state tok2 c s with
  | (st1, t1, sv1, s1), (st2, t2, sv2, s2) =>
      st1 = st2 /\ sv1 = sv2 /\ s1 = s2 /\
      (st1 = DONE -> t1 = t2)
  end.
Proof.
  intros Hst. destruct state; try congruence; cbn [dfa_switch];
    repeat case_if; repeat split; congruence.
Qed.

Lemma getToken_loop_currentToken fuel : forall state tok1 tok2 tokenString s,
  state <> DONE ->
  getToken_loop MAXTOKENLEN fuel state tok1 tokenString s
  = getToken_loop MAXTOKENLEN fuel state tok2 tokenString s.
Proof.
  induction fuel as [|fuel IH]; intros state tok1 tok2 tokenString s Hst;
    [reflexivity|].
  cbn [getToken_loop]. destruct (getNextChar s) as [c s1].
  pose proof (dfa_switch_currentToken state tok1 tok2 c s1 Hst) as H.
  destruct (dfa_switch state tok1 c s1) as [[[st1 t1] sv1] s1'].
  destruct (dfa_switch state tok2 c s1) as [[[st2 t2] sv2] s2'].
  destruct H as (<- & <- & <- & Ht).
  destruct st1; try (apply IH; discriminate).
  now rewrite Ht.
Qed.

Lemma scan_loop_more fuel : forall k state currentToken tokenString l r,
  scan_loop MAXTOKENLEN fuel state currentToken tokenString l = Some r ->
  scan_loop MAXTOKENLEN (fuel + k) state currentToken tokenString l = Some r.
Proof.
  induction fuel as [|fuel IH]; intros k state currentToken tokenString l r;
    [discriminate|].
  cbn [scan_loop Nat.add].
  destruct (dfa_delta state currentToken (head_code l)) as [[state' tok'] save].
  destruct state'; auto.
Qed.

Lemma getToken_loop_more fuel : forall k state currentToken tokenString s r,
  getToken_loop MAXTOKENLEN fuel state currentToken tokenString s = Some r ->
  getToken_loop MAXTOKENLEN (fuel + k) state currentToken tokenString s = Some r.
Proof.
  induction fuel as [|fuel IH]; intros k state currentToken tokenString s r;
    [discriminate|].
  cbn [getToken_loop Nat.add].
  destruct (getNextChar s) as [c s1].
  destruct (dfa_switch state currentToken c s1) as [[[state' tok'] save] s2].
  destruct state'; auto.
Qed.

Lemma getTokens_more n : forall fuel k s r,
  getTokens MAXTOKENLEN fuel n s = Some r ->
  getTokens MAXTOKENLEN (fuel + k) n s = Some r.
Proof.
  induction n as [|n IH]; intros fuel k s r; [trivial|].
  cbn [getTokens].
  destruct (getToken MAXTOKENLEN fuel s) as [[[tok str] s']|] eqn:E;
    [|discriminate].
  unfold getToken in *. rewrite (getToken_loop_more _ k _ _ _ _ _ E).
  destruct (getTokens MAXTOKENLEN fuel n s') as [[l s'']|] eqn:E';
    [|discriminate].
  now rewrite (IH _ k _ _ E').
Qed.

(** ** End of file *)

Lemma int_of_char_range c : -128 <= int_of_char c <= 127.
Proof.
  unfold int_of_char. pose proof (N_ascii_bounded c) as Hb.
  destruct (Z.of_N (N_of_ascii c) <? 128) eqn:E;
    [apply Z.ltb_lt in E|apply Z.ltb_ge in E]; lia.
Qed.

Lemma eof_free_app l1 l2 :
  eof_free (l1 ++ l2) = true <-> eof_free l1 = true /\ eof_free l2 = true.
Proof.
  unfold eof_free. rewrite forallb_app, andb_true_iff. tauto.
Qed.




Lemma getNextChar_exhausted s :
  exhausted s ->
  getNextChar s =
  (EOF, {| source := source s; lineBuf := lineBuf s; linepos := linepos s;
           bufsize := bufsize s; EOF_flag := true; lineno := lineno s + 1 |}).
Proof.
  intros [Hs Hp]. unfold getNextChar, refill.
  apply Z.ltb_ge in Hp. now rewrite Hp, Hs.
Qed.


Lemma reservedLookup_range s :
  In (reservedLookup s) [IF; THEN; ELSE; END; REPEAT; UNTIL; READ; WRITE; ID].
Proof.
  unfold reservedLookup, MAXRESERVED, reservedLookup_from, reservedWords, nth_error.
  repeat case_if; simpl; tauto.
Qed.

Lemma final_token_ENDFILE tok ts :
  final_token tok ts = ENDFILE -> tok = ENDFILE.
Proof.
  unfold final_token. destruct (TokenType_eqb tok ID); [|trivial].
  intros H. pose proof (reservedLookup_range ts) as R. rewrite H in R.
  simpl in R. repeat destruct R as [R|R]; try discriminate; contradiction.
Qed.

(** The end-of-file token is produced in START on [EOF] only. *)
Lemma dfa_delta_ENDFILE state currentToken c save :
  state <> DONE ->
  dfa_delta state currentToken c = (DONE, ENDFILE, save) ->
  state = START /\ c = EOF /\ dfa_backup state c = false.
Proof.
  intros Hst. unfold dfa_delta.
  destruct state; simpl; try congruence;
    repeat match goal with
           | |- context [if ?b then _ else _] => destruct b eqn:?; simpl
           end; try discriminate.
  intros _. repeat split. now apply Z.eqb_eq.
Qed.




(** ** Characters *)

Lemma char_of_int_of_char c : char_of_int (int_of_char c) = c.
Proof.
  unfold char_of_int, int_of_char.
  pose proof (N_ascii_bounded c) as Hb.
  destruct (Z.of_N (N_of_ascii c) <? 128) eqn:E.
  - rewrite Z.mod_small by lia. rewrite N2Z.id. apply ascii_N_embedding.
  - apply Z.ltb_ge in E.
    replace ((Z.of_N (N_of_ascii c) - 256) mod 256)
      with (Z.of_N (N_of_ascii c))
      by (apply (Z.mod_unique _ _ (-1)); lia).
    rewrite N2Z.id. apply ascii_N_embedding.
Qed.

Lemma int_of_char_inj a b : int_of_char a = int_of_char b -> a = b.
Proof.
  intros H. rewrite <- (char_of_int_of_char a), <- (char_of_int_of_char b).
  now rewrite H.
Qed.

Lemma is_letter_not_NUL c : is_letter c = true -> negb (Ascii.eqb c NUL) = true.
Proof.
  destruct (Ascii.eqb c NUL) eqn:E; [|reflexivity].
  apply Ascii.eqb_eq in E. subst c. discriminate.
Qed.

Lemma letters_nul_free l : forallb is_letter l = true -> nul_free l = true.
Proof.
  unfold nul_free. rewrite !forallb_forall.
  intros H c Hc. apply is_letter_not_NUL. now apply H.
Qed.

Lemma isalpha_not_isdigit c : isalpha c = true -> isdigit c = false.
Proof. unfold isalpha, isdigit. lia. Qed.

(** ** Storing into tokenString *)

Lemma stores_firstn l : forall ts,
  stores MAXTOKENLEN ts l = ts ++ firstn (S MAXTOKENLEN - length ts) l.
Proof.
  unfold stores. induction l as [|c l IH]; intros ts; cbn [fold_left].
  - now rewrite firstn_nil, app_nil_r.
  - rewrite IH. unfold store. cbn [andb]. rewrite char_of_int_of_char.
    destruct (length ts <=? MAXTOKENLEN)%nat eqn:E.
    + apply Nat.leb_le in E. rewrite length_app. cbn [length].
      replace (S MAXTOKENLEN - length ts)%nat
        with (S (MAXTOKENLEN - length ts)) by lia.
      replace (S MAXTOKENLEN - (length ts + 1))%nat
        with (MAXTOKENLEN - length ts)%nat by lia.
      cbn [firstn]. now rewrite <- app_assoc.
    + apply Nat.leb_gt in E.
      replace (S MAXTOKENLEN - length ts)%nat with 0%nat by lia.
      reflexivity.
Qed.

Lemma stores_nil l : stores MAXTOKENLEN [] l = firstn (S MAXTOKENLEN) l.
Proof. rewrite stores_firstn. reflexivity. Qed.

(** ** Reserved words *)

Lemma reservedLookup_find s :
  reservedLookup s =
  match find (fun p => streq s (fst p)) reservedWords with
  | Some p => snd p
  | None => ID
  end.
Proof.
  cbv [reservedLookup MAXRESERVED reservedLookup_from reservedWords find
       nth_error fst snd].
  repeat (case_if; try reflexivity).
Qed.

Lemma streq_eq s w :
  nul_free s = true -> nul_free w = true -> streq s w = true <-> s = w.
Proof.
  intros Hs Hw. unfold streq.
  rewrite (cstr_nul_free _ Hs), (cstr_nul_free _ Hw).
  apply list_ascii_eqb_eq.
Qed.

Lemma reservedWords_nul_free w k :
  In (w, k) reservedWords -> nul_free w = true.
Proof.
  intros H. simpl in H.
  repeat destruct H as [H|H]; try (inversion H; reflexivity).
Qed.

Lemma reservedWords_length w k :
  In (w, k) reservedWords -> (length w <= 6)%nat.
Proof.
  intros H. simpl in H.
  repeat destruct H as [H|H]; try (inversion H; simpl; lia).
Qed.

(** An exact match with a word of the table gives the kind of that word. *)
Lemma reservedLookup_match w k :
  In (w, k) reservedWords -> reservedLookup w = k.
Proof.
  intros H. simpl in H.
  repeat destruct H as [H|H]; try (inversion H; reflexivity).
Qed.

(** Without an exact match the lookup gives ID. *)
Lemma reservedLookup_no_match s :
  nul_free s = true ->
  (forall w k, In (w, k) reservedWords -> s <> w) ->
  reservedLookup s = ID.
Proof.
  intros Hs Hno. rewrite reservedLookup_find.
  destruct (find (fun p => streq s (fst p)) reservedWords) as [[w k]|] eqn:F;
    [|reflexivity].
  apply find_some in F as [Hin Heq]. cbn [fst] in Heq.
  apply streq_eq in Heq; [|assumption|now apply (reservedWords_nul_free w k)].
  now apply Hno in Hin.
Qed.

Lemma reservedLookup_long s :
  nul_free s = true -> (6 < length s)%nat -> reservedLookup s = ID.
Proof.
  intros Hs Hl. apply reservedLookup_no_match; [assumption|].
  intros w k Hin ->. apply reservedWords_length in Hin. lia.
Qed.

(** The lookup on a lexeme cut after more than six characters is the lookup
    on the whole lexeme. *)
Lemma reservedLookup_firstn n s :
  nul_free s = true -> (6 < n)%nat ->
  reservedLookup (firstn n s) = reservedLookup s.
Proof.
  intros Hs Hn. destruct (Nat.le_gt_cases (length s) n) as [H|H].
  - now rewrite firstn_all2.
  - rewrite (reservedLookup_long s) by (assumption || lia).
    apply reservedLookup_long.
    + rewrite <- (firstn_skipn n s) in Hs. now apply nul_free_app in Hs.
    + rewrite length_firstn. lia.
Qed.

(** ** Identifiers *)

Lemma dfa_delta_INID currentToken c :
  dfa_delta INID currentToken c =
  if isalpha c then (INID, currentToken, true) else (DONE, ID, false).
Proof. unfold dfa_delta. cbn [dfa_switch]. now destruct (isalpha c). Qed.

Lemma dfa_delta_START_letter currentToken c :
  isalpha c = true -> dfa_delta START currentToken c = (INID, currentToken, true).
Proof.
  intros H. unfold dfa_delta. cbn [dfa_switch].
  now rewrite (isalpha_not_isdigit _ H), H.
Qed.

(** In INID the letters are saved, the first character that is not a letter
    is put back and ends the token. *)
Lemma scan_loop_INID letters : forall k currentToken ts rest,
  forallb is_letter letters = true ->
  isalpha (head_code rest) = false ->
  scan_loop MAXTOKENLEN (length letters + 1 + k) INID currentToken ts
    (letters ++ rest)
  = Some (final_token ID (stores MAXTOKENLEN ts letters),
          stores MAXTOKENLEN ts letters, rest).
Proof.
  induction letters as [|c l IH]; intros k currentToken ts rest Hl Hr.
  - cbn [length Nat.add app scan_loop]. rewrite dfa_delta_INID, Hr.
    unfold after_step. cbn [dfa_backup]. rewrite Hr. reflexivity.
  - cbn [forallb] in Hl. apply andb_true_iff in Hl as [Hc Hl].
    cbn [length Nat.add app scan_loop head_code].
    unfold is_letter in Hc. rewrite dfa_delta_INID, Hc.
    unfold after_step. cbn [dfa_backup head_code negb tl]. rewrite Hc.
    cbn [negb]. rewrite IH by assumption. reflexivity.
Qed.

(** From START, a run of letters followed by something else is one token. *)
Lemma scan_loop_START_letters letters k rest :
  letters <> [] ->
  forallb is_letter letters = true ->
  isalpha (head_code rest) = false ->
  scan_loop MAXTOKENLEN (length letters + 1 + k) START ENDFILE []
    (letters ++ rest)
  = Some (final_token ID (firstn (S MAXTOKENLEN) letters),
          firstn (S MAXTOKENLEN) letters, rest).
Proof.
  intros Hne Hl Hr. destruct letters as [|c l]; [congruence|].
  rewrite <- stores_nil.
  cbn [forallb] in Hl. apply andb_true_iff in Hl as [Hc Hl].
  cbn [length Nat.add app scan_loop head_code].
  unfold is_letter in Hc. rewrite (dfa_delta_START_letter _ _ Hc).
  unfold after_step. cbn [dfa_backup tl].
  rewrite scan_loop_INID by assumption. reflexivity.
Qed.

(** The same, on any line buffer: when the next calls of getNextChar
    return letters and then something else, the loop saves the letters, puts
    the last character back and ends. *)
Lemma getToken_loop_INID letters : forall k currentToken ts s c,
  next_codes (length letters + 1) s = map int_of_char letters ++ [c] ->
  forallb is_letter letters = true ->
  isalpha c = false ->
  exists s',
    getToken_loop MAXTOKENLEN (length letters + 1 + k) INID currentToken ts s
    = Some (final_token ID (stores MAXTOKENLEN ts letters),
            stores MAXTOKENLEN ts letters, s').
Proof.
  induction letters as [|a l IH]; intros k currentToken ts s c Hn Hl Hc;
    cbn [length Nat.add next_codes map app getToken_loop] in *;
    destruct (getNextChar s) as [c0 s1].
  - injection Hn as ->.
    cbn [dfa_switch]. rewrite Hc. cbn [negb]. eexists. reflexivity.
  - injection Hn as -> H1.
    cbn [forallb] in Hl. apply andb_true_iff in Hl as [Ha Hl].
    unfold is_letter in Ha. cbn [dfa_switch]. rewrite Ha. cbn [negb].
    apply (IH k currentToken _ s1 c H1 Hl Hc).
Qed.

Lemma getToken_letters letters k s c :
  letters <> [] ->
  next_codes (length letters + 1) s = map int_of_char letters ++ [c] ->
  forallb is_letter letters = true ->
  isalpha c = false ->
  exists s',
    getToken MAXTOKENLEN (length letters + 1 + k) s
    = Some (final_token ID (firstn (S MAXTOKENLEN) letters),
            firstn (S MAXTOKENLEN) letters, s').
Proof.
  intros Hne Hn Hl Hc. destruct letters as [|a l]; [congruence|].
  rewrite <- stores_nil. unfold getToken.
  cbn [length Nat.add next_codes map app getToken_loop] in *.
  destruct (getNextChar s) as [c0 s1]. injection Hn as -> H1.
  cbn [forallb] in Hl. apply andb_true_iff in Hl as [Ha Hl].
  unfold is_letter in Ha. cbn [dfa_switch].
  rewrite (isalpha_not_isdigit _ Ha), Ha.
  apply (getToken_loop_INID l k ENDFILE _ s1 c H1 Hl Hc).
Qed.

Lemma reservedLookup_find_exact s :
  nul_free s = true ->
  reservedLookup s =
  match find (fun p => list_ascii_eqb s (fst p)) reservedWords with
  | Some p => snd p
  | None => ID
  end.
Proof.
  intros Hs. rewrite reservedLookup_find. unfold streq.
  rewrite (cstr_nul_free _ Hs). reflexivity.
Qed.

Lemma firstn_repeat (x : ascii) m : forall n,
  firstn m (repeat x (m + n)) = repeat x m.
Proof. induction m as [|m IH]; intros n; simpl; [reflexivity|now rewrite IH]. Qed.

Lemma reservedLookup_repeat_a n : reservedLookup (repeat "a"%char n) = ID.
Proof.
  apply reservedLookup_no_match.
  - unfold nul_free. apply forallb_forall. intros c Hc.
    apply repeat_spec in Hc. now subst c.
  - intros w k Hin E.
    assert (Ha : forallb (Ascii.eqb "a") w = true).
    { rewrite <- E. apply forallb_forall. intros c Hc.
      apply repeat_spec in Hc. now subst c. }
    clear E. simpl in Hin.
    repeat destruct Hin as [Hin|Hin];
      try (inversion Hin as [[Hw Hk]]; rewrite <- Hw in Ha;
           vm_compute in Ha; discriminate Ha); try contradiction.
Qed.

(** A token returned by the loop on the presented characters is returned
    by getToken on the line buffer. *)
Lemma getToken_of_scan fuel s l tok str l' :
  presents s l ->
  scan_loop MAXTOKENLEN fuel START ENDFILE [] l = Some (tok, str, l') ->
  exists s', getToken MAXTOKENLEN fuel s = Some (tok, str, s') /\
             presents s' l'.
Proof.
  intros Hs Hscan.
  pose proof (getToken_loop_refines fuel START ENDFILE [] s l Hs) as R.
  now rewrite Hscan in R.
Qed.

(** ** Assignment *)

Lemma dfa_delta_START_colon currentToken :
  dfa_delta START currentToken (ch ":") = (INASSIGN, currentToken, true).
Proof. reflexivity. Qed.

Lemma dfa_delta_INASSIGN currentToken c :
  dfa_delta INASSIGN currentToken c =
  if c =? ch "=" then (DONE, ASSIGN, true) else (DONE, ERROR, false).
Proof. unfold dfa_delta. cbn [dfa_switch]. now destruct (c =? ch "="). Qed.

Lemma scan_loop_assign k rest :
  scan_loop MAXTOKENLEN (2 + k) START ENDFILE [] (":"%char :: "="%char :: rest)
  = Some (ASSIGN, firstn (S MAXTOKENLEN) (lit ":="), rest).
Proof.
  rewrite <- stores_nil.
  cbn [Nat.add scan_loop head_code]. fold (ch ":").
  rewrite dfa_delta_START_colon. unfold after_step.
  cbn [dfa_backup tl head_code]. rewrite dfa_delta_INASSIGN.
  reflexivity.
Qed.

Lemma scan_loop_colon k l :
  head_code l <> ch "=" ->
  scan_loop MAXTOKENLEN (2 + k) START ENDFILE [] (":"%char :: l)
  = Some (ERROR, lit ":", l).
Proof.
  intros H. apply Z.eqb_neq in H.
  cbn [Nat.add scan_loop head_code]. fold (ch ":").
  rewrite dfa_delta_START_colon. unfold after_step.
  cbn [dfa_backup tl head_code]. rewrite dfa_delta_INASSIGN, H.
  reflexivity.
Qed.

(** When the loop has the same outcome on the characters that two well
    formed line buffers present, getToken has the same outcome on the two
    line buffers. *)
Lemma getToken_same_scan f1 f2 s t l1 l2 :
  presents s l1 -> presents t l2 ->
  scan_loop MAXTOKENLEN f1 START ENDFILE [] l1
  = scan_loop MAXTOKENLEN f2 START ENDFILE [] l2 ->
  same_token (getToken MAXTOKENLEN f1 s) (getToken MAXTOKENLEN f2 t).
Proof.
  intros Hs Ht Heq. unfold getToken, same_token.
  pose proof (getToken_loop_refines f1 START ENDFILE [] s l1 Hs) as Rs.
  pose proof (getToken_loop_refines f2 START ENDFILE [] t l2 Ht) as Rt.
  rewrite Heq in Rs.
  destruct (scan_loop MAXTOKENLEN f2 START ENDFILE [] l2) as [[[k0 str0] l0]|].
  - destruct Rs as (s' & -> & [_ Hs']). destruct Rt as (t' & -> & [_ Ht']).
    repeat split. congruence.
  - now rewrite Rs, Rt.
Qed.

Lemma getToken_same_input fuel s t l :
  presents s l -> presents t l ->
  same_token (getToken MAXTOKENLEN fuel s) (getToken MAXTOKENLEN fuel t).
Proof. intros Hs Ht. now apply (getToken_same_scan fuel fuel s t l l). Qed.

(** getToken keeps the line buffer well formed: the results on well formed
    line buffers hold at every position of a text without NUL characters. *)
Lemma getToken_presents fuel s l tok str s' :
  presents s l ->
  getToken MAXTOKENLEN fuel s = Some (tok, str, s') ->
  exists l', presents s' l'.
Proof.
  intros Hs Hget.
  pose proof (getToken_loop_refines fuel START ENDFILE [] s l Hs) as R.
  unfold getToken in Hget.
  destruct (scan_loop MAXTOKENLEN fuel START ENDFILE [] l) as [[[k0 str0] l0]|].
  - destruct R as (s0 & E & P). rewrite E in Hget. inversion Hget; subst.
    now exists l0.
  - congruence.
Qed.

Lemma getTokens_presents fuel n : forall s l toks s',
  presents s l ->
  getTokens MAXTOKENLEN fuel n s = Some (toks, s') ->
  exists l', presents s' l'.
Proof.
  induction n as [|n IH]; intros s l toks s' Hs Hget; cbn [getTokens] in Hget.
  - inversion Hget; subst. now exists l.
  - destruct (getToken MAXTOKENLEN fuel s) as [[[tok str] s1]|] eqn:E;
      [|discriminate].
    destruct (getToken_presents _ _ _ _ _ _ Hs E) as [l1 Hs1].
    destruct (getTokens MAXTOKENLEN fuel n s1) as [[toks1 s2]|] eqn:E1;
      [|discriminate].
    inversion Hget; subst. now apply (IH s1 l1 toks1 s').
Qed.

Lemma getToken_None_of_scan fuel s l :
  presents s l ->
  scan_loop MAXTOKENLEN fuel START ENDFILE [] l = None ->
  getToken MAXTOKENLEN fuel s = None.
Proof.
  intros Hs Hscan.
  pose proof (getToken_loop_refines fuel START ENDFILE [] s l Hs) as R.
  now rewrite Hscan in R.
Qed.

(** ** Comments *)

Lemma getToken_loop_INCOMMENT_exhausted fuel : forall currentToken tokenString s,
  exhausted s ->
  getToken_loop MAXTOKENLEN fuel INCOMMENT currentToken tokenString s = None.
Proof.
  induction fuel as [|fuel IH]; intros currentToken tokenString s H;
    [reflexivity|].
  cbn [getToken_loop]. rewrite (getNextChar_exhausted _ H). simpl.
  apply IH. destruct H. now split.
Qed.

Lemma dfa_delta_INCOMMENT currentToken c :
  dfa_delta INCOMMENT currentToken c =
  if c =? ch "}" then (START, currentToken, false)
  else (INCOMMENT, currentToken, false).
Proof. unfold dfa_delta. cbn [dfa_switch]. now destruct (c =? ch "}"). Qed.

Lemma not_close_code c : not_close c = true -> (int_of_char c =? ch "}") = false.
Proof.
  unfold not_close. intros H. apply Z.eqb_neq. intros E.
  apply int_of_char_inj in E. subst c. discriminate.
Qed.

(** In INCOMMENT everything up to the closing brace is discarded; the
    closing brace leads back to START. *)
Lemma scan_loop_comment body : forall k currentToken ts rest,
  forallb not_close body = true ->
  scan_loop MAXTOKENLEN (length body + 1 + k) INCOMMENT currentToken ts
    (body ++ "}"%char :: rest)
  = scan_loop MAXTOKENLEN k START currentToken ts rest.
Proof.
  induction body as [|c body IH]; intros k currentToken ts rest Hb.
  - cbn [length Nat.add app scan_loop head_code].
    rewrite dfa_delta_INCOMMENT. reflexivity.
  - cbn [forallb] in Hb. apply andb_true_iff in Hb as [Hc Hb].
    cbn [length Nat.add app scan_loop head_code].
    rewrite dfa_delta_INCOMMENT, (not_close_code _ Hc).
    unfold after_step. cbn [dfa_backup tl store andb].
    now apply IH.
Qed.

Lemma dfa_delta_START_open currentToken :
  dfa_delta START currentToken (ch "{") = (INCOMMENT, currentToken, false).
Proof. reflexivity. Qed.

Lemma dfa_delta_START_space currentToken c :
  is_space c = true ->
  dfa_delta START currentToken (int_of_char c) = (START, currentToken, false).
Proof.
  unfold is_space. rewrite !orb_true_iff, !Z.eqb_eq.
  intros [[[[[H|H]|H]|H]|H]|H]; rewrite H; reflexivity.
Qed.

(** In START white space is discarded. *)
Lemma scan_loop_spaces ws : forall k currentToken ts rest,
  forallb is_space ws = true ->
  scan_loop MAXTOKENLEN (length ws + k) START currentToken ts (ws ++ rest)
  = scan_loop MAXTOKENLEN k START currentToken ts rest.
Proof.
  induction ws as [|c ws IH]; intros k currentToken ts rest Hw;
    [reflexivity|].
  cbn [forallb] in Hw. apply andb_true_iff in Hw as [Hc Hw].
  cbn [length Nat.add app scan_loop head_code].
  rewrite (dfa_delta_START_space _ _ Hc).
  unfold after_step. cbn [dfa_backup tl store andb].
  now apply IH.
Qed.

(** A comment in START is skipped. *)
Lemma scan_loop_skip_comment body k currentToken ts rest :
  forallb not_close body = true ->
  scan_loop MAXTOKENLEN (length body + 2 + k) START currentToken ts
    ("{"%char :: body ++ "}"%char :: rest)
  = scan_loop MAXTOKENLEN k START currentToken ts rest.
Proof.
  intros Hb. replace (length body + 2 + k)%nat with (S (length body + 1 + k))
    by lia.
  cbn [scan_loop head_code]. fold (ch "{"). rewrite dfa_delta_START_open.
  unfold after_step. cbn [dfa_backup tl store andb].
  now apply scan_loop_comment.
Qed.

(** White space and comments before a token are discarded in the call that
    returns the token. *)
Lemma scan_loop_blank pre : forall in_comment k currentToken ts rest,
  is_blank in_comment pre = true ->
  scan_loop MAXTOKENLEN (length pre + k)
    (if in_comment then INCOMMENT else START) currentToken ts (pre ++ rest)
  = scan_loop MAXTOKENLEN k START currentToken ts rest.
Proof.
  induction pre as [|c pre IH]; intros in_comment k currentToken ts rest Hb;
    cbn [is_blank] in Hb.
  - destruct in_comment; [discriminate|reflexivity].
  - cbn [length Nat.add app scan_loop head_code]. unfold after_step.
    destruct in_comment.
    + rewrite dfa_delta_INCOMMENT. cbn [dfa_backup tl].
      destruct (not_close c) eqn:Hc.
      * rewrite (not_close_code _ Hc). cbn [store andb].
        now apply (IH true).
      * unfold not_close in Hc. apply negb_false_iff, Ascii.eqb_eq in Hc.
        subst c. cbn [store andb]. now apply (IH false).
    + cbn [dfa_backup tl]. destruct (Ascii.eqb c "{") eqn:Hc.
      * apply Ascii.eqb_eq in Hc. subst c. fold (ch "{").
        rewrite dfa_delta_START_open. cbn [store andb]. now apply (IH true).
      * apply andb_true_iff in Hb as [Hs Hb].
        rewrite (dfa_delta_START_space _ _ Hs). cbn [store andb].
        now apply (IH false).
Qed.

(** The same, on any line buffer, for the values that the next calls of
    getNextChar return. *)
Lemma getToken_loop_blank pre : forall in_comment n k currentToken ts s codes,
  is_blank in_comment pre = true ->
  next_codes (length pre + n) s = map int_of_char pre ++ codes ->
  exists s1,
    next_codes n s1 = codes /\
    getToken_loop MAXTOKENLEN (length pre + k)
      (if in_comment then INCOMMENT else START) currentToken ts s
    = getToken_loop MAXTOKENLEN k START currentToken ts s1.
Proof.
  induction pre as [|c pre IH];
    intros in_comment n k currentToken ts s codes Hb Hn; cbn [is_blank] in Hb.
  - destruct in_comment; [discriminate|]. now exists s.
  - cbn [length Nat.add next_codes map app getToken_loop] in *.
    destruct (getNextChar s) as [c0 s0]. injection Hn as -> Hn.
    rewrite dfa_switch_split. destruct in_comment.
    + rewrite dfa_delta_INCOMMENT. cbn [dfa_backup].
      destruct (not_close c) eqn:Hc.
      * rewrite (not_close_code _ Hc). cbn [store andb].
        now apply (IH true).
      * unfold not_close in Hc. apply negb_false_iff, Ascii.eqb_eq in Hc.
        subst c. cbn [store andb]. now apply (IH false).
    + cbn [dfa_backup]. destruct (Ascii.eqb c "{") eqn:Hc.
      * apply Ascii.eqb_eq in Hc. subst c. fold (ch "{").
        rewrite dfa_delta_START_open. cbn [store andb]. now apply (IH true).
      * apply andb_true_iff in Hb as [Hs Hb].
        rewrite (dfa_delta_START_space _ _ Hs). cbn [store andb].
        now apply (IH false).
Qed.

(** ** Termination *)

Lemma code_eqb c a : (int_of_char c =? ch a) = Ascii.eqb c a.
Proof.
  destruct (Ascii.eqb c a) eqn:E.
  - apply Ascii.eqb_eq in E. subst c. apply Z.eqb_refl.
  - apply Z.eqb_neq. intros H. apply int_of_char_inj in H. subst c.
    now rewrite Ascii.eqb_refl in E.
Qed.

(** Where an iteration of the loop leads when it does not end the token. *)
Lemma dfa_delta_continue state currentToken c state' currentToken' save :
  state <> DONE ->
  dfa_delta state currentToken (int_of_char c) = (state', currentToken', save) ->
  state' <> DONE ->
  dfa_backup state (int_of_char c) = false /\
  in_comment state' =
  if in_comment state then not_close c else Ascii.eqb c "{".
Proof.
  intros Hst D Hst'. unfold dfa_delta, not_close in *.
  destruct state; try congruence; cbn [dfa_switch dfa_backup in_comment] in *.
  - (* START *)
    rewrite code_eqb in D. split; [reflexivity|].
    destruct (Ascii.eqb c "{") eqn:E.
    + apply Ascii.eqb_eq in E. subst c. now inversion D.
    + revert D.
      repeat case_if; intros D; inversion D; subst; try reflexivity;
        congruence.
  - (* INASSIGN *)
    revert D. destruct (int_of_char c =? ch "="); intros D; inversion D;
      congruence.
  - (* INCOMMENT *)
    rewrite code_eqb in D. split; [reflexivity|].
    destruct (Ascii.eqb c "}"); inversion D; reflexivity.
  - (* INNUM *)
    revert D. destruct (isdigit (int_of_char c)) eqn:Hd; intros D;
      inversion D; [|congruence].
    split; [reflexivity|]. subst.
    destruct (Ascii.eqb c "{") eqn:E; [|reflexivity].
    apply Ascii.eqb_eq in E. subst c. discriminate.
  - (* INID *)
    revert D. destruct (isalpha (int_of_char c)) eqn:Ha; intros D; inversion D;
      [|congruence].
    split; [reflexivity|]. subst.
    destruct (Ascii.eqb c "{") eqn:E; [|reflexivity].
    apply Ascii.eqb_eq in E. subst c. discriminate.
Qed.

(** At the end of the input every state but INCOMMENT ends the token. *)
Lemma dfa_delta_EOF state currentToken :
  state <> DONE -> in_comment state = false ->
  exists tok save, dfa_delta state currentToken EOF = (DONE, tok, save).
Proof.
  intros Hst Hc. destruct state; try congruence; try discriminate;
    eexists; eexists; reflexivity.
Qed.

(** The loop ends, within one iteration per character and one for the end of
    the input, when the comments of the text are closed. *)
Lemma scan_loop_returns l : forall state currentToken ts,
  state <> DONE ->
  comments_closed (in_comment state) l = true ->
  exists r, scan_loop MAXTOKENLEN (S (length l)) state currentToken ts l = Some r.
Proof.
  induction l as [|c l IH]; intros state currentToken ts Hst Hcl;
    cbn [comments_closed] in Hcl.
  - apply negb_true_iff in Hcl.
    destruct (dfa_delta_EOF state currentToken Hst Hcl) as (tok & save & D).
    cbn [length scan_loop head_code]. rewrite D. eexists; reflexivity.
  - cbn [length]. remember (S (length l)) as n eqn:En.
    cbn [scan_loop head_code].
    destruct (dfa_delta state currentToken (int_of_char c))
      as [[state' tok'] save] eqn:D.
    assert (Hnext : state' <> DONE ->
              exists r, scan_loop MAXTOKENLEN n state' tok'
                          (store MAXTOKENLEN save ts (int_of_char c))
                          (after_step state (c :: l)) = Some r).
    { intros Hst'.
      destruct (dfa_delta_continue _ _ _ _ _ _ Hst D Hst') as [Hb Hin].
      unfold after_step. cbn [head_code]. rewrite Hb. cbn [tl]. subst n.
      apply IH; [exact Hst'|]. rewrite Hin.
      now destruct (in_comment state). }
    destruct state'; try (apply Hnext; discriminate).
    eexists; reflexivity.
Qed.

(** getToken returns on a well formed line buffer that presents a text
    whose comments are closed. *)
Lemma getToken_returns s l :
  presents s l ->
  comments_closed false l = true ->
  exists tok str s',
    getToken MAXTOKENLEN (S (length l)) s = Some (tok, str, s').
Proof.
  intros Hs Hcl.
  destruct (scan_loop_returns l START ENDFILE [] ltac:(discriminate) Hcl)
    as [[[tok str] l'] E].
  destruct (getToken_of_scan _ _ _ _ _ _ Hs E) as (s' & E' & _).
  now exists tok, str, s'.
Qed.

Lemma scan_loop_None_less fuel k state currentToken ts l :
  scan_loop MAXTOKENLEN (fuel + k) state currentToken ts l = None ->
  scan_loop MAXTOKENLEN fuel state currentToken ts l = None.
Proof.
  intros H.
  destruct (scan_loop MAXTOKENLEN fuel state currentToken ts l) as [r|] eqn:E;
    [|reflexivity].
  apply (scan_loop_more _ k) in E. congruence.
Qed.


End ScannerProperties.

(** ** Physical lines *)










(** ** The scenarios of the specification *)

Example scenario_if_then :
  exists s',
    getTokens sample_MAXTOKENLEN 10 5 (initial_scanner (lit "if x then end"))
    = Some ([(IF, lit "if"); (ID, lit "x"); (THEN, lit "then");
             (END, lit "end"); (ENDFILE, [])], s').
Proof. eexists. vm_compute. reflexivity. Qed.

Example scenario_comment :
  exists s',
    getTokens sample_MAXTOKENLEN 20 3
      (initial_scanner (lit "{ comment } read x"))
    = Some ([(READ, lit "read"); (ID, lit "x"); (ENDFILE, [])], s').
Proof. eexists. vm_compute. reflexivity. Qed.

Example scenario_bare_colon :
  exists s',
    getTokens sample_MAXTOKENLEN 10 4 (initial_scanner (lit "a : b"))
    = Some ([(ID, lit "a"); (ERROR, lit ":"); (ID, lit "b"); (ENDFILE, [])],
            s').
Proof. eexists. vm_compute. reflexivity. Qed.

(** ** The claims of the specification *)

(** C1. For the input [x := 12;], successive calls of getToken return the
    identifier with lexeme ["x"], the assignment token, the number with
    lexeme ["12"], the semicolon and the end-of-file token, in that order
    (for a maximum token length of at least 1, and every amount of fuel that
    covers the four iterations of the longest call). *)
Theorem scenario_assignment MAXTOKENLEN fuel :
  (1 <= MAXTOKENLEN)%nat -> (4 <= fuel)%nat ->
  exists s',
    getTokens MAXTOKENLEN fuel 5 (initial_scanner (lit "x := 12;")) =
    Some ([(ID, lit "x"); (ASSIGN, lit ":="); (NUM, lit "12"); (SEMI, []);
           (ENDFILE, [])], s').
Proof.
  intros HM Hf. destruct MAXTOKENLEN as [|m]; [lia|].
  replace fuel with (4 + (fuel - 4))%nat by lia.
  eexists. apply getTokens_more. vm_compute. reflexivity.
Qed.

Lemma scenario_assignment_witness :
  exists s',
    getTokens sample_MAXTOKENLEN 4 5 (initial_scanner (lit "x := 12;")) =
    Some ([(ID, lit "x"); (ASSIGN, lit ":="); (NUM, lit "12"); (SEMI, []);
           (ENDFILE, [])], s').
Proof.
  apply (scenario_assignment sample_MAXTOKENLEN 4);
    unfold sample_MAXTOKENLEN; lia.
Defined.

(** C2, as amended (for a line buffer that presents text without NUL
    characters). When the characters to be delivered are white space and
    comments, if any, and then a colon, the call of getToken returns one
    token. If the colon is followed by an equals sign, the token is the
    assignment token and both characters are consumed. If it is followed by
    another character, the token is the error token with the lexeme ":", and
    that character is still to be delivered: the next call of getToken has
    the outcome it has on any line buffer that presents the same
    characters. *)
Theorem assign_lookahead MAXTOKENLEN s pre l fuel :
  presents s (pre ++ ":"%char :: l) ->
  is_blank false pre = true ->
  (length pre + 2 <= fuel)%nat ->
  (forall rest, l = "="%char :: rest ->
     exists s',
       getToken MAXTOKENLEN fuel s
       = Some (ASSIGN, firstn (S MAXTOKENLEN) (lit ":="), s') /\
       presents s' rest) /\
  (forall c rest, l = c :: rest -> c <> "="%char ->
     exists s',
       getToken MAXTOKENLEN fuel s = Some (ERROR, lit ":", s') /\
       presents s' (c :: rest) /\
       forall t fuel', presents t (c :: rest) ->
         same_token (getToken MAXTOKENLEN fuel' s')
                    (getToken MAXTOKENLEN fuel' t)).
Proof.
  intros Hs Hb Hf.
  set (k := (fuel - (length pre + 2))%nat).
  replace fuel with (length pre + (2 + k))%nat by lia. split.
  - intros rest ->.
    apply (getToken_of_scan MAXTOKENLEN _ s _ _ _ _ Hs).
    rewrite (scan_loop_blank MAXTOKENLEN pre false) by assumption.
    apply scan_loop_assign.
  - intros c rest -> Hc.
    destruct (getToken_of_scan MAXTOKENLEN (length pre + (2 + k)) s
                (pre ++ ":"%char :: c :: rest) ERROR (lit ":") (c :: rest) Hs)
      as (s' & E & Hs').
    { rewrite (scan_loop_blank MAXTOKENLEN pre false) by assumption.
      apply scan_loop_colon. intros E. now apply int_of_char_inj in E. }
    exists s'. split; [exact E|]. split; [exact Hs'|].
    intros t fuel' Ht. now apply getToken_same_input with (l := c :: rest).
Qed.

Lemma assign_lookahead_witness :
  exists s',
    getToken sample_MAXTOKENLEN 3 (initial_scanner (lit " :x"))
    = Some (ERROR, lit ":", s') /\
    presents s' (lit "x").
Proof.
  destruct (assign_lookahead sample_MAXTOKENLEN (initial_scanner (lit " :x"))
              (lit " ") (lit "x") 3) as [_ H].
  - unfold presents, wf, remaining; simpl.
    repeat split; try lia; try reflexivity; discriminate.
  - reflexivity.
  - simpl; lia.
  - destruct (H "x"%char [] eq_refl ltac:(discriminate)) as (s' & E & P & _).
    exists s'. split; assumption.
Defined.

(** C2, as stated, fails when the character read after the colon is a NUL
    at the start of a line read by fgets: that line is, as a C string, empty,
    so that putting the NUL back leaves the cursor at the length and the NUL
    is not delivered again. After the error token for the colon the next
    call returns the end-of-file token, while a call made when just the colon
    has been consumed returns an error token for the NUL. *)
Lemma assign_lookahead_counterexample :
  let file := [":"%char; NUL; newline; NUL; "x"%char] in
  getTokens sample_MAXTOKENLEN 3 2 (initial_scanner file)
  = Some ([(ERROR, lit ":"); (ENDFILE, [])],
          mkScanner [] [NUL; "x"%char] 0 0 true 3) /\
  getToken sample_MAXTOKENLEN 3 (snd (getNextChar (initial_scanner file)))
  = Some (ERROR, [NUL], mkScanner [] [NUL; "x"%char] 1 0 false 2).
Proof. split; vm_compute; reflexivity. Qed.

(** C3. An identifier-shaped lexeme (after white space and comments, if
    any, a run of letters returned by the next calls of getNextChar, followed
    by a value that is not a letter: a character or EOF) is classified by an
    exact, case-sensitive comparison of the whole lexeme with the words of
    the reserved word table, in table order: the kind is that of the first
    word equal to the lexeme, and ID when no word is equal to it; the stored
    lexeme agrees with the lexeme on the first MAXTOKENLEN characters and is
    the whole lexeme when that has at most MAXTOKENLEN characters. The
    reserved words have up to six characters, and MAXTOKENLEN is taken to be
    at least 6. *)
Theorem reserved_word_classification MAXTOKENLEN s pre letters c fuel :
  (6 <= MAXTOKENLEN)%nat ->
  is_blank false pre = true ->
  letters <> [] ->
  forallb is_letter letters = true ->
  isalpha c = false ->
  next_codes (length pre + (length letters + 1)) s
  = map int_of_char pre ++ (map int_of_char letters ++ [c]) ->
  (length pre + (length letters + 1) <= fuel)%nat ->
  exists tok str s',
    getToken MAXTOKENLEN fuel s = Some (tok, str, s') /\
    tok = match find (fun p => list_ascii_eqb letters (fst p)) reservedWords with
          | Some p => snd p
          | None => ID
          end /\
    (forall w k, In (w, k) reservedWords -> letters = w -> tok = k) /\
    ((forall w k, In (w, k) reservedWords -> letters <> w) -> tok = ID) /\
    firstn MAXTOKENLEN str = firstn MAXTOKENLEN letters /\
    ((length letters <= MAXTOKENLEN)%nat -> str = letters).
Proof.
  intros HM Hb Hne Hl Hc Hn Hf.
  pose proof (letters_nul_free _ Hl) as Hnf.
  set (k := (fuel - (length pre + (length letters + 1)))%nat).
  replace fuel with (length pre + (length letters + 1 + k))%nat by lia.
  destruct (getToken_loop_blank MAXTOKENLEN pre false (length letters + 1)
              (length letters + 1 + k) ENDFILE [] s _ Hb Hn)
    as (s1 & Hn1 & E1).
  destruct (getToken_letters MAXTOKENLEN letters k s1 c Hne Hn1 Hl Hc)
    as (s' & E).
  unfold getToken in *. rewrite <- E1 in E.
  unfold final_token in E. cbn [TokenType_eqb] in E.
  rewrite reservedLookup_firstn in E by (assumption || lia).
  exists (reservedLookup letters), (firstn (S MAXTOKENLEN) letters), s'.
  split; [exact E|].
  split; [now apply reservedLookup_find_exact|].
  split; [intros w kd Hin ->; now apply reservedLookup_match|].
  split; [now apply reservedLookup_no_match|].
  split.
  - rewrite firstn_firstn. f_equal. lia.
  - intros Hlen. apply firstn_all2. lia.
Qed.

Lemma reserved_word_classification_witness :
  exists s',
    getToken sample_MAXTOKENLEN 10 (initial_scanner (lit "{c} then x"))
    = Some (THEN, lit "then", s').
Proof.
  destruct (reserved_word_classification sample_MAXTOKENLEN
              (initial_scanner (lit "{c} then x")) (lit "{c} ") (lit "then")
              (ch " ") 10)
    as (tok & str & s' & E & _ & Hk & _ & _ & Hstr).
  - unfold sample_MAXTOKENLEN; lia.
  - reflexivity.
  - discriminate.
  - reflexivity.
  - reflexivity.
  - reflexivity.
  - simpl; lia.
  - exists s'. rewrite E.
    rewrite (Hk (lit "then") THEN); [|simpl; tauto|reflexivity].
    rewrite Hstr; [reflexivity|]. unfold sample_MAXTOKENLEN; simpl; lia.
Defined.

(** C4: the claim fails on the code. For a token of more than MAXTOKENLEN
    letters all the letters are consumed, but MAXTOKENLEN + 1 of them are
    stored, one more than the maximum token length, so that the terminating
    NUL is written at index MAXTOKENLEN + 1, the size of the array
    tokenString, one past its last element. *)
Theorem tokenString_stores_one_too_many MAXTOKENLEN n k :
  exists str s',
    getToken MAXTOKENLEN (MAXTOKENLEN + n + 2 + k)
      (initial_scanner (repeat "a"%char (S MAXTOKENLEN + n)))
    = Some (ID, str, s') /\
    presents s' [] /\
    str = repeat "a"%char (S MAXTOKENLEN) /\
    length str = tokenString_size MAXTOKENLEN /\
    (MAXTOKENLEN < length str)%nat.
Proof.
  set (letters := repeat "a"%char (S MAXTOKENLEN + n)).
  assert (Hl : forallb is_letter letters = true).
  { apply forallb_forall. intros c Hc. apply repeat_spec in Hc. now subst c. }
  assert (Hs : presents (initial_scanner letters) (letters ++ [])).
  { rewrite app_nil_r. apply wf_initial. now apply letters_nul_free. }
  assert (Hlen : length letters = (S MAXTOKENLEN + n)%nat)
    by apply repeat_length.
  destruct (getToken_of_scan MAXTOKENLEN _ _ _ _ _ _ Hs
              (scan_loop_START_letters MAXTOKENLEN letters k []
                 ltac:(unfold letters; discriminate) Hl eq_refl))
    as (s' & E & Hs').
  unfold letters at 3 4 in E. rewrite firstn_repeat in E.
  unfold final_token in E. cbn [TokenType_eqb] in E.
  rewrite reservedLookup_repeat_a in E.
  exists (repeat "a"%char (S MAXTOKENLEN)), s'.
  rewrite repeat_length. unfold tokenString_size.
  split; [rewrite <- E; f_equal; lia|].
  split; [exact Hs'|]. split; [reflexivity|]. split; lia.
Qed.







(** C7, as amended (for line buffers that present text without NUL
    characters). When the characters to be delivered are a comment, white
    space or nothing, a second comment, and then [rest], the call of getToken
    has the outcome of a call on a line buffer that presents [rest] alone,
    with the fuel that the skipped characters take; and no token is returned
    before the two comments have been read entirely. *)
Theorem comments_transparent MAXTOKENLEN s t c1 ws c2 rest fuel :
  presents s ("{"%char :: c1 ++ "}"%char :: ws
              ++ "{"%char :: c2 ++ "}"%char :: rest) ->
  presents t rest ->
  forallb not_close c1 = true ->
  forallb is_space ws = true ->
  forallb not_close c2 = true ->
  let skipped := (length c1 + 2 + (length ws + (length c2 + 2)))%nat in
  same_token (getToken MAXTOKENLEN (skipped + fuel) s)
             (getToken MAXTOKENLEN fuel t) /\
  (forall f, (f <= skipped)%nat -> getToken MAXTOKENLEN f s = None).
Proof.
  intros Hs Ht H1 Hw H2 skipped.
  assert (Hskip : forall k,
            scan_loop MAXTOKENLEN (skipped + k) START ENDFILE []
              ("{"%char :: c1 ++ "}"%char :: ws
               ++ "{"%char :: c2 ++ "}"%char :: rest)
            = scan_loop MAXTOKENLEN k START ENDFILE [] rest).
  { intros k. unfold skipped.
    replace (length c1 + 2 + (length ws + (length c2 + 2)) + k)%nat
      with (length c1 + 2 + (length ws + (length c2 + 2 + k)))%nat by lia.
    rewrite scan_loop_skip_comment by assumption.
    rewrite scan_loop_spaces by assumption.
    now rewrite scan_loop_skip_comment by assumption. }
  split.
  - eapply getToken_same_scan; [exact Hs|exact Ht|apply Hskip].
  - intros f Hf. eapply getToken_None_of_scan; [exact Hs|].
    apply (scan_loop_None_less MAXTOKENLEN f (skipped - f)).
    replace (f + (skipped - f))%nat with (skipped + 0)%nat by lia.
    now rewrite Hskip.
Qed.

Lemma comments_transparent_witness :
  let skipped :=
    (length (lit "a") + 2 + (length (lit " ") + (length (lit "b") + 2)))%nat in
  same_token
    (getToken sample_MAXTOKENLEN (skipped + 5)
       (initial_scanner (lit "{a} {b}read x")))
    (getToken sample_MAXTOKENLEN 5 (initial_scanner (lit "read x"))) /\
  (forall f, (f <= skipped)%nat ->
     getToken sample_MAXTOKENLEN f (initial_scanner (lit "{a} {b}read x"))
     = None).
Proof.
  refine (comments_transparent sample_MAXTOKENLEN
            (initial_scanner (lit "{a} {b}read x"))
            (initial_scanner (lit "read x"))
            (lit "a") (lit " ") (lit "b") (lit "read x") 5 _ _ _ _ _).
  - unfold presents, wf, remaining; simpl.
    repeat split; try lia; try reflexivity; discriminate.
  - unfold presents, wf, remaining; simpl.
    repeat split; try lia; try reflexivity; discriminate.
  - reflexivity.
  - reflexivity.
  - reflexivity.
Defined.

(** C7, as stated, fails when a comment contains a NUL: the line read by
    fgets ends, as a C string, before the NUL, and the rest of the line,
    with the closing brace, the second comment and the identifier [y], is
    not delivered; the comment goes on to the closing brace of the next
    line, and getToken returns the identifier [x], while without the two
    comments it returns the identifier [y]. *)
Lemma comments_transparent_counterexample :
  let rest := lit "y" ++ [newline] ++ lit "}x" in
  (exists s',
     getToken sample_MAXTOKENLEN 10
       (initial_scanner ("{"%char :: NUL :: lit "}{b}" ++ rest))
     = Some (ID, lit "x", s')) /\
  (exists t',
     getToken sample_MAXTOKENLEN 10 (initial_scanner rest)
     = Some (ID, lit "y", t')).
Proof. split; eexists; vm_compute; reflexivity. Qed.

(** C8. On the file that holds just an opening brace (an unterminated
    comment) no amount of fuel makes the loop of getToken end: the call never
    returns. *)
Theorem unterminated_comment_never_returns MAXTOKENLEN fuel :
  getToken MAXTOKENLEN fuel (initial_scanner (lit "{")) = None.
Proof.
  destruct fuel as [|fuel]; [reflexivity|].
  unfold getToken. cbn [getToken_loop].
  change (getNextChar (initial_scanner (lit "{")))
    with (ch "{", mkScanner [] (lit "{") 1 1 false 1).
  simpl. apply getToken_loop_INCOMMENT_exhausted. split; simpl; [reflexivity|lia].
Qed.

(** C9, as amended (for a file without NUL characters). After every sequence
    of nextChar and putBack operations in which each putBack directly follows
    a nextChar, the cursor is in the range from 0 to the length of the line;
    getNextChar takes its refill branch exactly when the cursor has reached
    the length; putBack decrements the cursor by one when the end-of-file
    flag is not set and leaves the line buffer unchanged, however often it is
    repeated, when the flag is set. *)
Theorem cursor_invariant file ops :
  nul_free file = true ->
  disciplined false ops = true ->
  let s := run_ops ops (initial_scanner file) in
  0 <= linepos s <= bufsize s /\
  bufsize s = Z.of_nat (length (lineBuf s)) /\
  (getNextChar s = refill s <-> linepos s = bufsize s) /\
  (EOF_flag s = false ->
   ungetNextChar s =
   {| source := source s; lineBuf := lineBuf s; linepos := linepos s - 1;
      bufsize := bufsize s; EOF_flag := EOF_flag s; lineno := lineno s |}) /\
  (EOF_flag s = true -> forall n, Nat.iter n ungetNextChar s = s).
Proof.
  intros Hnf Hd s.
  assert (Hwf : wf s).
  { apply (run_ops_wf ops false); [|discriminate|exact Hd].
    now destruct (wf_initial file Hnf). }
  destruct Hwf as (Hpos & Hsize & _ & _).
  split; [exact Hpos|]. split; [exact Hsize|]. split; [|split].
  - unfold getNextChar. split.
    + destruct (linepos s <? bufsize s) eqn:Hlt; cbn [negb].
      * intros E. apply (f_equal (fun r => lineno (snd r))) in E.
        rewrite refill_lineno in E. cbn [snd lineno] in E. lia.
      * apply Z.ltb_ge in Hlt. lia.
    + intros ->. now rewrite Z.ltb_irrefl.
  - intros Hfl. unfold ungetNextChar. now rewrite Hfl.
  - intros Hfl n. now apply ungetNextChar_latched.
Qed.

Lemma cursor_invariant_witness :
  let s := run_ops [NextChar; PutBack; NextChar; NextChar; NextChar; PutBack]
             (initial_scanner (lit "ab")) in
  0 <= linepos s <= bufsize s.
Proof.
  refine (proj1 (cursor_invariant (lit "ab")
            [NextChar; PutBack; NextChar; NextChar; NextChar; PutBack] _ _)).
  - reflexivity.
  - reflexivity.
Defined.

(** C9, as stated, fails on a file whose first line starts with a NUL: the
    line read by fgets is, as a C string, empty, and after one nextChar the
    cursor, 1, is beyond the length, 0. *)
Lemma cursor_invariant_counterexample :
  let s := run_ops [NextChar] (initial_scanner (NUL :: lit "ab")) in
  disciplined false [NextChar] = true /\
  linepos s = 1 /\ bufsize s = 0 /\ ~ (0 <= linepos s <= bufsize s).
Proof. vm_compute. repeat split. intros [_ H]. apply H. reflexivity. Qed.




(** * Further properties of the scanner *)

Section TokenProperties.

Variable MAXTOKENLEN : nat.

(** ** Numbers *)

Lemma dfa_delta_INNUM currentToken c :
  dfa_delta INNUM currentToken c =
  if isdigit c then (INNUM, currentToken, true) else (DONE, NUM, false).
Proof. unfold dfa_delta. cbn [dfa_switch]. now destruct (isdigit c). Qed.

Lemma dfa_delta_START_digit currentToken c :
  isdigit c = true -> dfa_delta START currentToken c = (INNUM, currentToken, true).
Proof. intros H. unfold dfa_delta. cbn [dfa_switch]. now rewrite H. Qed.

(** In INNUM the digits are saved, the first character that is not a digit
    is put back and ends the token. *)
Lemma scan_loop_INNUM digits : forall k currentToken ts rest,
  forallb is_digit digits = true ->
  isdigit (head_code rest) = false ->
  scan_loop MAXTOKENLEN (length digits + 1 + k) INNUM currentToken ts
    (digits ++ rest)
  = Some (NUM, stores MAXTOKENLEN ts digits, rest).
Proof.
  induction digits as [|c l IH]; intros k currentToken ts rest Hl Hr.
  - cbn [length Nat.add app scan_loop]. rewrite dfa_delta_INNUM, Hr.
    unfold after_step. cbn [dfa_backup]. rewrite Hr. reflexivity.
  - cbn [forallb] in Hl. apply andb_true_iff in Hl as [Hc Hl].
    cbn [length Nat.add app scan_loop head_code].
    unfold is_digit in Hc. rewrite dfa_delta_INNUM, Hc.
    unfold after_step. cbn [dfa_backup head_code negb tl]. rewrite Hc.
    cbn [negb]. rewrite IH by assumption. reflexivity.
Qed.

Lemma scan_loop_START_digits digits k rest :
  digits <> [] ->
  forallb is_digit digits = true ->
  isdigit (head_code rest) = false ->
  scan_loop MAXTOKENLEN (length digits + 1 + k) START ENDFILE []
    (digits ++ rest)
  = Some (NUM, firstn (S MAXTOKENLEN) digits, rest).
Proof.
  intros Hne Hl Hr. destruct digits as [|c l]; [congruence|].
  rewrite <- stores_nil.
  cbn [forallb] in Hl. apply andb_true_iff in Hl as [Hc Hl].
  cbn [length Nat.add app scan_loop head_code].
  unfold is_digit in Hc. rewrite (dfa_delta_START_digit _ _ Hc).
  unfold after_step. cbn [dfa_backup tl].
  rewrite scan_loop_INNUM by assumption. reflexivity.
Qed.

(** ** Single-character tokens *)

Lemma operator_kind_delta currentToken c tok :
  operator_kind c = Some tok ->
  dfa_delta START currentToken (int_of_char c) = (DONE, tok, false).
Proof.
  unfold operator_kind.
  repeat match goal with
         | |- context [Ascii.eqb c ?a] =>
             destruct (Ascii.eqb c a) eqn:E;
             [apply Ascii.eqb_eq in E; subst c; intros H; inversion H;
              reflexivity|clear E]
         end.
  discriminate.
Qed.

Lemma unrecognized_delta currentToken c :
  unrecognized c = true ->
  dfa_delta START currentToken (int_of_char c) = (DONE, ERROR, true).
Proof.
  unfold unrecognized, operator_kind, is_digit, is_letter, is_space.
  intros H. repeat (apply andb_true_iff in H as [H ?]).
  repeat match goal with
         | H0 : negb _ = true |- _ => apply negb_true_iff in H0
         end.
  unfold dfa_delta. cbn [dfa_switch]. rewrite !code_eqb in *.
  repeat match goal with
         | H0 : ?b = false |- context [if ?b then _ else _] => rewrite H0
         end.
  repeat match goal with
         | |- context [if Ascii.eqb c ?a then _ else _] =>
             destruct (Ascii.eqb c a); [discriminate|]
         end.
  reflexivity.
Qed.

Lemma scan_loop_operator c tok k rest :
  operator_kind c = Some tok ->
  scan_loop MAXTOKENLEN (1 + k) START ENDFILE [] (c :: rest)
  = Some (tok, [], rest).
Proof.
  intros H. cbn [Nat.add scan_loop head_code].
  rewrite (operator_kind_delta _ _ _ H). unfold after_step.
  cbn [dfa_backup tl store andb]. unfold final_token.
  now destruct tok.
Qed.

Lemma scan_loop_unrecognized c k rest :
  unrecognized c = true ->
  scan_loop MAXTOKENLEN (1 + k) START ENDFILE [] (c :: rest)
  = Some (ERROR, [c], rest).
Proof.
  intros H. cbn [Nat.add scan_loop head_code].
  rewrite (unrecognized_delta _ _ H). unfold after_step.
  cbn [dfa_backup tl]. unfold store. cbn [andb length Nat.leb app].
  now rewrite char_of_int_of_char.
Qed.

(** ** End of the input *)

Lemma scan_loop_EOF k :
  scan_loop MAXTOKENLEN (1 + k) START ENDFILE [] [] = Some (ENDFILE, [], []).
Proof. reflexivity. Qed.

End TokenProperties.

(** A token found by the loop after white space and comments is returned by
    getToken on a line buffer that presents the text. *)
Lemma getToken_after_blank MAXTOKENLEN s pre l fuel k tok str l' :
  presents s (pre ++ l) ->
  is_blank false pre = true ->
  scan_loop MAXTOKENLEN k START ENDFILE [] l = Some (tok, str, l') ->
  (length pre + k <= fuel)%nat ->
  exists s', getToken MAXTOKENLEN fuel s = Some (tok, str, s') /\
             presents s' l'.
Proof.
  intros Hs Hb Hscan Hf.
  apply (getToken_of_scan MAXTOKENLEN fuel s (pre ++ l)); [exact Hs|].
  replace fuel with (length pre + k + (fuel - (length pre + k)))%nat by lia.
  apply scan_loop_more.
  rewrite (scan_loop_blank MAXTOKENLEN pre false) by assumption.
  exact Hscan.
Qed.

(** X1. After white space and comments, a run of digits followed by a
    character that is not a digit, or by the end of the input, is returned
    as one NUM token; its stored lexeme is the run of digits, cut after
    MAXTOKENLEN + 1 characters; the character after the digits is not
    consumed: it is the first one still to be delivered. *)
Theorem number_token MAXTOKENLEN s pre digits rest fuel :
  presents s (pre ++ digits ++ rest) ->
  is_blank false pre = true ->
  digits <> [] ->
  forallb is_digit digits = true ->
  isdigit (head_code rest) = false ->
  (length pre + (length digits + 1) <= fuel)%nat ->
  exists s',
    getToken MAXTOKENLEN fuel s
    = Some (NUM, firstn (S MAXTOKENLEN) digits, s') /\
    presents s' rest.
Proof.
  intros Hs Hb Hne Hd Hr Hf.
  apply (getToken_after_blank MAXTOKENLEN s pre (digits ++ rest) fuel
           (length digits + 1 + 0)); try assumption; [|lia].
  now apply scan_loop_START_digits.
Qed.

Lemma number_token_witness :
  exists s',
    getToken sample_MAXTOKENLEN 6 (initial_scanner (lit " 2024;"))
    = Some (NUM, firstn (S sample_MAXTOKENLEN) (lit "2024"), s') /\
    presents s' (lit ";").
Proof.
  refine (number_token sample_MAXTOKENLEN (initial_scanner (lit " 2024;"))
            (lit " ") (lit "2024") (lit ";") 6 _ _ _ _ _ _).
  - unfold presents, wf, remaining; simpl.
    repeat split; try lia; try reflexivity; discriminate.
  - reflexivity.
  - discriminate.
  - reflexivity.
  - reflexivity.
  - simpl; lia.
Defined.

(** X2. After white space and comments, a run of letters followed by a
    character that is not a letter, or by the end of the input, is returned
    as one token, for every value of MAXTOKENLEN: the stored lexeme is the
    run of letters cut after MAXTOKENLEN + 1 characters, the kind is the
    result of the reserved word lookup on the stored lexeme, and the
    character after the letters is not consumed. *)
Theorem identifier_token MAXTOKENLEN s pre letters rest fuel :
  presents s (pre ++ letters ++ rest) ->
  is_blank false pre = true ->
  letters <> [] ->
  forallb is_letter letters = true ->
  isalpha (head_code rest) = false ->
  (length pre + (length letters + 1) <= fuel)%nat ->
  exists s',
    getToken MAXTOKENLEN fuel s
    = Some (reservedLookup (firstn (S MAXTOKENLEN) letters),
            firstn (S MAXTOKENLEN) letters, s') /\
    presents s' rest.
Proof.
  intros Hs Hb Hne Hl Hr Hf.
  apply (getToken_after_blank MAXTOKENLEN s pre (letters ++ rest) fuel
           (length letters + 1 + 0)); try assumption; [|lia].
  now apply scan_loop_START_letters.
Qed.

Lemma identifier_token_witness :
  exists s',
    getToken 1 4 (initial_scanner (lit "ifx+"))
    = Some (reservedLookup (firstn 2 (lit "ifx")), firstn 2 (lit "ifx"), s') /\
    presents s' (lit "+").
Proof.
  refine (identifier_token 1 (initial_scanner (lit "ifx+"))
            [] (lit "ifx") (lit "+") 4 _ _ _ _ _ _).
  - unfold presents, wf, remaining; simpl.
    repeat split; try lia; try reflexivity; discriminate.
  - reflexivity.
  - discriminate.
  - reflexivity.
  - reflexivity.
  - simpl; lia.
Defined.

(** X3. After white space and comments, each of the characters
    [+ - * / ; ( ) < =] is returned as one token of the corresponding kind,
    with an empty stored lexeme; exactly that character is consumed. *)
Theorem operator_token MAXTOKENLEN s pre c tok rest fuel :
  presents s (pre ++ c :: rest) ->
  is_blank false pre = true ->
  operator_kind c = Some tok ->
  (length pre + 1 <= fuel)%nat ->
  exists s',
    getToken MAXTOKENLEN fuel s = Some (tok, [], s') /\ presents s' rest.
Proof.
  intros Hs Hb Hop Hf.
  apply (getToken_after_blank MAXTOKENLEN s pre (c :: rest) fuel (1 + 0));
    try assumption.
  now apply scan_loop_operator.
Qed.

Lemma operator_token_witness :
  exists s',
    getToken sample_MAXTOKENLEN 5 (initial_scanner (lit "{c} <="))
    = Some (LT, [], s') /\ presents s' (lit "=").
Proof.
  refine (operator_token sample_MAXTOKENLEN (initial_scanner (lit "{c} <="))
            (lit "{c} ") "<"%char LT (lit "=") 5 _ _ _ _).
  - unfold presents, wf, remaining; simpl.
    repeat split; try lia; try reflexivity; discriminate.
  - reflexivity.
  - reflexivity.
  - simpl; lia.
Defined.

(** X4. After white space and comments, a character that is not a digit, a
    letter, an opening brace, white space, a colon, one of the
    single-character tokens or the byte 255 (whose value is that of EOF) is
    returned as an ERROR token whose stored lexeme is that character;
    exactly that character is consumed, so that the scan goes on behind
    it. *)
Theorem unrecognized_token MAXTOKENLEN s pre c rest fuel :
  presents s (pre ++ c :: rest) ->
  is_blank false pre = true ->
  unrecognized c = true ->
  (length pre + 1 <= fuel)%nat ->
  exists s',
    getToken MAXTOKENLEN fuel s = Some (ERROR, [c], s') /\ presents s' rest.
Proof.
  intros Hs Hb Hun Hf.
  apply (getToken_after_blank MAXTOKENLEN s pre (c :: rest) fuel (1 + 0));
    try assumption.
  now apply scan_loop_unrecognized.
Qed.

Lemma unrecognized_token_witness :
  exists s',
    getToken sample_MAXTOKENLEN 2 (initial_scanner (lit " }x"))
    = Some (ERROR, lit "}", s') /\ presents s' (lit "x").
Proof.
  refine (unrecognized_token sample_MAXTOKENLEN (initial_scanner (lit " }x"))
            (lit " ") "}"%char (lit "x") 2 _ _ _ _).
  - unfold presents, wf, remaining; simpl.
    repeat split; try lia; try reflexivity; discriminate.
  - reflexivity.
  - reflexivity.
  - simpl; lia.
Defined.

(** X5. When only white space and comments are left, getToken returns the
    end-of-file token, with an empty lexeme, and nothing is left to be
    delivered. *)
Theorem blank_input_endfile MAXTOKENLEN s pre fuel :
  presents s pre ->
  is_blank false pre = true ->
  (length pre + 1 <= fuel)%nat ->
  exists s',
    getToken MAXTOKENLEN fuel s = Some (ENDFILE, [], s') /\ presents s' [].
Proof.
  intros Hs Hb Hf. rewrite <- (app_nil_r pre) in Hs.
  apply (getToken_after_blank MAXTOKENLEN s pre [] fuel (1 + 0));
    try assumption.
  apply scan_loop_EOF.
Qed.

Lemma blank_input_endfile_witness :
  exists s',
    getToken sample_MAXTOKENLEN 13
      (initial_scanner (lit " {one}" ++ [newline] ++ lit "{two}"))
    = Some (ENDFILE, [], s') /\ presents s' [].
Proof.
  refine (blank_input_endfile sample_MAXTOKENLEN
            (initial_scanner (lit " {one}" ++ [newline] ++ lit "{two}"))
            (lit " {one}" ++ [newline] ++ lit "{two}") 13 _ _ _).
  - unfold presents, wf, remaining; simpl.
    repeat split; try lia; try reflexivity; discriminate.
  - reflexivity.
  - simpl; lia.
Defined.

Section LexemeProperties.

Variable MAXTOKENLEN : nat.

Lemma store_length save ts c :
  (length ts <= S MAXTOKENLEN)%nat ->
  (length (store MAXTOKENLEN save ts c) <= S MAXTOKENLEN)%nat.
Proof.
  intros H. unfold store.
  destruct (save && (length ts <=? MAXTOKENLEN)%nat) eqn:E; [|exact H].
  apply andb_true_iff in E as [_ E]. apply Nat.leb_le in E.
  rewrite length_app. simpl. lia.
Qed.

Lemma getToken_loop_length fuel : forall state currentToken ts s tok str s',
  (length ts <= S MAXTOKENLEN)%nat ->
  getToken_loop MAXTOKENLEN fuel state currentToken ts s = Some (tok, str, s') ->
  (length str <= S MAXTOKENLEN)%nat.
Proof.
  induction fuel as [|fuel IH]; intros state currentToken ts s tok str s' Hl;
    [discriminate|].
  cbn [getToken_loop]. destruct (getNextChar s) as [c s1].
  destruct (dfa_switch state currentToken c s1) as [[[state' tok'] save] s2].
  pose proof (store_length save ts c Hl) as Hl'.
  destruct state'; try (apply IH; exact Hl').
  intros H. inversion H; subst. exact Hl'.
Qed.

Lemma int_of_char_of_int c :
  0 <= c < 128 -> int_of_char (char_of_int c) = c.
Proof.
  intros H. unfold int_of_char, char_of_int. cbv zeta.
  rewrite Z.mod_small by lia.
  rewrite N_ascii_embedding by lia. rewrite Z2N.id by lia.
  replace (c <? 128) with true by (symmetry; apply Z.ltb_lt; lia).
  reflexivity.
Qed.

Lemma isdigit_char_of_int c :
  isdigit c = true -> is_digit (char_of_int c) = true.
Proof.
  intros H. unfold is_digit. rewrite int_of_char_of_int; [exact H|].
  unfold isdigit in H. lia.
Qed.

Lemma isalpha_char_of_int c :
  isalpha c = true -> is_letter (char_of_int c) = true.
Proof.
  intros H. unfold is_letter. rewrite int_of_char_of_int; [exact H|].
  unfold isalpha in H. lia.
Qed.

Lemma store_saves_first c :
  store MAXTOKENLEN true [] c = [char_of_int c].
Proof. reflexivity. Qed.

Lemma store_forallb (P : ascii -> bool) save ts c :
  ts <> [] -> forallb P ts = true -> P (char_of_int c) = true ->
  store MAXTOKENLEN save ts c <> [] /\
  forallb P (store MAXTOKENLEN save ts c) = true.
Proof.
  intros Hne Hall Hc. unfold store.
  destruct (save && (length ts <=? MAXTOKENLEN)%nat); [|now split].
  split; [now destruct ts|].
  rewrite forallb_app, Hall. cbn [forallb]. now rewrite Hc.
Qed.

Lemma lexeme_shape_lookup ts :
  ts <> [] -> forallb is_letter ts = true ->
  lexeme_shape MAXTOKENLEN (reservedLookup ts) ts.
Proof.
  intros Hne Hl. pose proof (reservedLookup_range ts) as R.
  remember (reservedLookup ts) as k eqn:Ek.
  cbn [In] in R.
  repeat destruct R as [R|R]; try contradiction; subst k; rewrite <- R;
    cbn [lexeme_shape]; repeat split; try assumption; congruence.
Qed.

(** One iteration of the loop keeps [tokenString] in the shape of the state,
    and gives it the shape of the token when it ends the token. *)
Lemma dfa_delta_shape state currentToken c ts state' currentToken' save :
  state_lexeme state ts ->
  dfa_delta state currentToken c = (state', currentToken', save) ->
  match state' with
  | DONE => lexeme_shape MAXTOKENLEN
              (final_token currentToken' (store MAXTOKENLEN save ts c))
              (store MAXTOKENLEN save ts c)
  | _ => state_lexeme state' (store MAXTOKENLEN save ts c)
  end.
Proof.
  intros Hinv D. destruct state; cbn [state_lexeme] in Hinv;
    try contradiction.
  - (* START *)
    subst ts. unfold dfa_delta in D. cbn [dfa_switch] in D. revert D.
    destruct (isdigit c) eqn:Hd.
    { intros D; inversion D; subst. rewrite store_saves_first.
      cbn [state_lexeme forallb]. rewrite (isdigit_char_of_int _ Hd).
      now split. }
    destruct (isalpha c) eqn:Ha.
    { intros D; inversion D; subst. rewrite store_saves_first.
      cbn [state_lexeme forallb]. rewrite (isalpha_char_of_int _ Ha).
      now split. }
    destruct (c =? ch "{"); [intros D; inversion D; reflexivity|].
    match goal with
    | |- context [if ?b then _ else _] => destruct b
    end; [intros D; inversion D; reflexivity|].
    destruct (c =? ch ":") eqn:Hc.
    { apply Z.eqb_eq in Hc. subst c. intros D; inversion D; reflexivity. }
    repeat case_if; intros D; inversion D; subst; reflexivity.
  - (* INASSIGN *)
    subst ts. rewrite dfa_delta_INASSIGN in D.
    destruct (c =? ch "=") eqn:Hc; inversion D; subst.
    + apply Z.eqb_eq in Hc. subst c. unfold final_token.
      cbn [TokenType_eqb lexeme_shape].
      unfold store. cbn [andb length lit list_ascii_of_string].
      destruct MAXTOKENLEN as [|n]; [reflexivity|].
      cbn. now rewrite firstn_nil.
    + reflexivity.
  - (* INCOMMENT *)
    subst ts. rewrite dfa_delta_INCOMMENT in D.
    destruct (c =? ch "}"); inversion D; reflexivity.
  - (* INNUM *)
    destruct Hinv as [Hne Hall]. rewrite dfa_delta_INNUM in D.
    destruct (isdigit c) eqn:Hd; inversion D; subst.
    + cbn [state_lexeme]. apply store_forallb; try assumption.
      now apply isdigit_char_of_int.
    + unfold final_token, store. cbn [andb TokenType_eqb lexeme_shape].
      now split.
  - (* INID *)
    destruct Hinv as [Hne Hall]. rewrite dfa_delta_INID in D.
    destruct (isalpha c) eqn:Ha; inversion D; subst.
    + cbn [state_lexeme]. apply store_forallb; try assumption.
      now apply isalpha_char_of_int.
    + unfold final_token, store. cbn [andb TokenType_eqb].
      now apply lexeme_shape_lookup.
Qed.

Lemma getToken_loop_shape fuel : forall state currentToken ts s tok str s',
  state_lexeme state ts ->
  getToken_loop MAXTOKENLEN fuel state currentToken ts s = Some (tok, str, s') ->
  lexeme_shape MAXTOKENLEN tok str.
Proof.
  induction fuel as [|fuel IH]; intros state currentToken ts s tok str s' Hinv;
    [discriminate|].
  cbn [getToken_loop]. destruct (getNextChar s) as [c s1].
  rewrite dfa_switch_split.
  destruct (dfa_delta state currentToken c) as [[state' tok'] save] eqn:D.
  pose proof (dfa_delta_shape _ _ _ _ _ _ _ Hinv D) as Hstep.
  destruct state'; try (apply IH; exact Hstep).
  intros H. inversion H; subst. exact Hstep.
Qed.

End LexemeProperties.

(** X6. Whatever the line buffer and the input, the lexeme stored by a call
    of getToken has at most MAXTOKENLEN + 1 characters. *)
Theorem lexeme_length_bound MAXTOKENLEN fuel s tok str s' :
  getToken MAXTOKENLEN fuel s = Some (tok, str, s') ->
  (length str <= MAXTOKENLEN + 1)%nat.
Proof.
  intros H. apply getToken_loop_length in H; simpl in *; lia.
Qed.

Lemma lexeme_length_bound_witness :
  getToken 2 10 (initial_scanner (lit "77777 "))
  = Some (NUM, lit "777", mkScanner [] (lit "77777 ") 5 6 false 1) /\
  (length (lit "777") <= 2 + 1)%nat.
Proof.
  assert (H : getToken 2 10 (initial_scanner (lit "77777 "))
              = Some (NUM, lit "777", mkScanner [] (lit "77777 ") 5 6 false 1))
    by (vm_compute; reflexivity).
  split; [exact H|]. exact (lexeme_length_bound _ _ _ _ _ _ H).
Defined.

(** X7. Whatever the line buffer and the input, the stored lexeme has the
    shape of the kind of the token returned: digits only, and at least one,
    for NUM; letters only, and at least one, for ID and the reserved words,
    whose kind is the result of the reserved word lookup on the stored
    lexeme; [:=] (cut after MAXTOKENLEN + 1 characters) for ASSIGN; exactly
    one character for ERROR; nothing for the end-of-file token and the
    single-character tokens. *)
Theorem lexeme_has_shape MAXTOKENLEN fuel s tok str s' :
  getToken MAXTOKENLEN fuel s = Some (tok, str, s') ->
  lexeme_shape MAXTOKENLEN tok str.
Proof.
  intros H. now apply getToken_loop_shape in H.
Qed.

Lemma lexeme_has_shape_witness :
  getToken sample_MAXTOKENLEN 10 (initial_scanner (lit "until x"))
  = Some (UNTIL, lit "until", mkScanner [] (lit "until x") 5 7 false 1) /\
  lexeme_shape sample_MAXTOKENLEN UNTIL (lit "until").
Proof.
  assert (H : getToken sample_MAXTOKENLEN 10 (initial_scanner (lit "until x"))
              = Some (UNTIL, lit "until",
                      mkScanner [] (lit "until x") 5 7 false 1))
    by (vm_compute; reflexivity).
  split; [exact H|]. exact (lexeme_has_shape _ _ _ _ _ _ H).
Defined.

(** X8. The variable currentToken, which getToken does not initialise, is
    never read before it is assigned: the outcome of the loop entered in
    START is the same for every value the variable has at that point. *)
Theorem currentToken_never_read_uninitialised MAXTOKENLEN fuel tok s :
  getToken_loop MAXTOKENLEN fuel START tok [] s = getToken MAXTOKENLEN fuel s.
Proof. apply getToken_loop_currentToken. discriminate. Qed.

Section ScanProgress.

Variable MAXTOKENLEN : nat.

(** ** What a call of getToken consumes *)

Lemma dfa_backup_DONE state currentToken c state' currentToken' save :
  dfa_backup state c = true ->
  dfa_delta state currentToken c = (state', currentToken', save) ->
  state' = DONE.
Proof.
  intros Hb D. destruct state; cbn [dfa_backup] in Hb; try discriminate.
  - rewrite dfa_delta_INASSIGN in D.
    destruct (c =? ch "="); now inversion D.
  - rewrite dfa_delta_INNUM in D. apply negb_true_iff in Hb.
    rewrite Hb in D. now inversion D.
  - rewrite dfa_delta_INID in D. apply negb_true_iff in Hb.
    rewrite Hb in D. now inversion D.
Qed.

(** The iterations that end a token: which state gives which kind. *)
Lemma dfa_delta_DONE state currentToken c currentToken' save :
  state <> DONE ->
  dfa_delta state currentToken c = (DONE, currentToken', save) ->
  match currentToken' with
  | NUM => state = INNUM /\ isdigit c = false
  | ID => state = INID /\ isalpha c = false
  | IF | THEN | ELSE | END | REPEAT | UNTIL | READ | WRITE => False
  | _ => True
  end /\
  (dfa_backup state c = false -> state <> INCOMMENT /\ (c =? ch "{") = false).
Proof.
  intros Hst D. destruct state; try congruence.
  - (* START *)
    unfold dfa_delta in D. cbn [dfa_switch] in D. revert D.
    destruct (isdigit c); [intros D; inversion D|].
    destruct (isalpha c); [intros D; inversion D|].
    destruct (c =? ch "{") eqn:Hc; [intros D; inversion D|].
    repeat case_if; intros D; inversion D; subst; split; trivial;
      intros _; (split; [discriminate|reflexivity]).
  - (* INASSIGN *)
    rewrite dfa_delta_INASSIGN in D. cbn [dfa_backup].
    destruct (c =? ch "=") eqn:Hc; inversion D; subst; split; trivial;
      try discriminate.
    intros _. apply Z.eqb_eq in Hc. subst c.
    split; [discriminate|reflexivity].
  - (* INCOMMENT *)
    rewrite dfa_delta_INCOMMENT in D. destruct (c =? ch "}"); inversion D.
  - (* INNUM *)
    rewrite dfa_delta_INNUM in D. cbn [dfa_backup].
    destruct (isdigit c) eqn:Hd; inversion D; subst.
    split; [now split|discriminate].
  - (* INID *)
    rewrite dfa_delta_INID in D. cbn [dfa_backup].
    destruct (isalpha c) eqn:Ha; inversion D; subst.
    split; [now split|discriminate].
Qed.

Lemma final_token_NUM tok ts : final_token tok ts = NUM -> tok = NUM.
Proof.
  unfold final_token. destruct (TokenType_eqb tok ID); [|trivial].
  intros H. pose proof (reservedLookup_range ts) as R. rewrite H in R.
  simpl in R. repeat destruct R as [R|R]; try discriminate; contradiction.
Qed.

Lemma final_token_word tok ts :
  is_word_kind (final_token tok ts) = true -> is_word_kind tok = true.
Proof.
  unfold final_token. destruct (TokenType_eqb tok ID) eqn:E; [|trivial].
  intros _. now destruct tok.
Qed.

Lemma head_code_EOF l : eof_free l = true -> head_code l = EOF -> l = [].
Proof.
  destruct l as [|c l]; [reflexivity|]. cbn [head_code eof_free forallb].
  intros He H. apply andb_true_iff in He as [He _].
  apply negb_true_iff, Z.eqb_neq in He. now contradiction He.
Qed.

Lemma eof_free_after_step state l :
  eof_free l = true -> eof_free (after_step state l) = true.
Proof.
  intros He. unfold after_step.
  destruct (dfa_backup state (head_code l)); [exact He|].
  destruct l as [|c l]; [reflexivity|].
  cbn [eof_free forallb tl] in *. now apply andb_true_iff in He as [_ He].
Qed.

Lemma after_step_suffix state l :
  exists consumed, l = consumed ++ after_step state l /\
                   (dfa_backup state (head_code l) = false ->
                    l <> [] -> consumed <> []).
Proof.
  unfold after_step. destruct (dfa_backup state (head_code l)).
  - exists []. split; [reflexivity|discriminate].
  - destruct l as [|c l]; [exists []; split; [reflexivity|congruence]|].
    exists [c]. split; [reflexivity|discriminate].
Qed.

(** What the loop leaves: a suffix of the text; nothing after the
    end-of-file token, in a text without the byte 255; no digit after a
    number, no letter after a word. *)
Lemma scan_loop_rest fuel : forall state currentToken ts l tok str l',
  state <> DONE ->
  scan_loop MAXTOKENLEN fuel state currentToken ts l = Some (tok, str, l') ->
  (exists consumed, l = consumed ++ l') /\
  (tok = ENDFILE -> eof_free l = true -> l' = []) /\
  (tok = NUM -> isdigit (head_code l') = false) /\
  (is_word_kind tok = true -> isalpha (head_code l') = false).
Proof.
  induction fuel as [|fuel IH]; intros state currentToken ts l tok str l' Hst;
    [discriminate|].
  cbn [scan_loop].
  destruct (dfa_delta state currentToken (head_code l))
    as [[state' tok'] save] eqn:D.
  destruct (after_step_suffix state l) as (c0 & Hc0 & _).
  assert (Hrec : state' <> DONE ->
            scan_loop MAXTOKENLEN fuel state' tok'
              (store MAXTOKENLEN save ts (head_code l)) (after_step state l)
            = Some (tok, str, l') ->
            (exists consumed, l = consumed ++ l') /\
            (tok = ENDFILE -> eof_free l = true -> l' = []) /\
            (tok = NUM -> isdigit (head_code l') = false) /\
            (is_word_kind tok = true -> isalpha (head_code l') = false)).
  { intros Hst' H. apply IH in H as ([c1 Hc1] & H2 & H3 & H4); [|exact Hst'].
    split; [exists (c0 ++ c1); now rewrite <- app_assoc, <- Hc1|].
    split; [|now split].
    intros Ht He. apply H2; [exact Ht|]. now apply eof_free_after_step. }
  destruct state'; try (apply Hrec; discriminate).
  intros H. inversion H; subst tok str l'. clear H Hrec.
  destruct (dfa_delta_DONE _ _ _ _ _ Hst D) as [Hk Hb].
  split; [now exists c0|]. split; [|split].
  - intros Ht He. apply final_token_ENDFILE in Ht. subst tok'.
    apply dfa_delta_ENDFILE in D as (_ & Hc & Hbk); [|exact Hst].
    apply head_code_EOF in Hc; [|exact He]. subst l. unfold after_step.
    now rewrite Hbk.
  - intros Ht. apply final_token_NUM in Ht. subst tok'.
    destruct Hk as [-> Hd]. unfold after_step. cbn [dfa_backup].
    now rewrite Hd.
  - intros Ht. apply final_token_word in Ht.
    destruct tok'; try discriminate; try contradiction.
    destruct Hk as [-> Ha]. unfold after_step. cbn [dfa_backup].
    now rewrite Ha.
Qed.

(** From START a token other than the end-of-file token takes at least one
    character. *)
Lemma scan_loop_progress fuel l tok str l' :
  scan_loop MAXTOKENLEN fuel START ENDFILE [] l = Some (tok, str, l') ->
  tok <> ENDFILE ->
  exists c consumed, l = c :: consumed ++ l'.
Proof.
  destruct fuel as [|fuel]; [discriminate|]. cbn [scan_loop].
  destruct l as [|c r].
  - cbn. intros H. inversion H. congruence.
  - destruct (dfa_delta START ENDFILE (head_code (c :: r)))
      as [[state' tok'] save] eqn:D.
    unfold after_step. cbn [dfa_backup tl]. intros H Hne. exists c.
    destruct state';
      try (apply scan_loop_rest in H as ([c1 Hc1] & _); [|discriminate];
           exists c1; now rewrite Hc1).
    inversion H; subst. now exists [].
Qed.

(** The comments of the text left are closed when those of the text are. *)
Lemma scan_loop_comments_closed fuel :
  forall state currentToken ts l tok str l',
  state <> DONE ->
  scan_loop MAXTOKENLEN fuel state currentToken ts l = Some (tok, str, l') ->
  comments_closed (in_comment state) l = true ->
  comments_closed false l' = true.
Proof.
  induction fuel as [|fuel IH]; intros state currentToken ts l tok str l' Hst;
    [discriminate|].
  cbn [scan_loop].
  destruct (dfa_delta state currentToken (head_code l))
    as [[state' tok'] save] eqn:D.
  assert (Hrec : state' <> DONE ->
            scan_loop MAXTOKENLEN fuel state' tok'
              (store MAXTOKENLEN save ts (head_code l)) (after_step state l)
            = Some (tok, str, l') ->
            comments_closed (in_comment state) l = true ->
            comments_closed false l' = true).
  { intros Hst' H Hcl. apply IH in H; [exact H|exact Hst'|].
    destruct l as [|c r].
    - cbn [comments_closed] in Hcl. apply negb_true_iff in Hcl.
      destruct (dfa_delta_EOF state currentToken Hst Hcl) as (t0 & s0 & E).
      cbn [head_code] in D. rewrite E in D. inversion D. congruence.
    - cbn [head_code] in D.
      destruct (dfa_delta_continue _ _ _ _ _ _ Hst D Hst') as [Hb Hin].
      unfold after_step. cbn [head_code]. rewrite Hb. cbn [tl]. rewrite Hin.
      cbn [comments_closed] in Hcl. now destruct (in_comment state). }
  destruct state'; try (apply Hrec; discriminate).
  intros H Hcl. inversion H; subst tok str l'. clear H Hrec.
  destruct (dfa_delta_DONE _ _ _ _ _ Hst D) as [_ Hb].
  unfold after_step. destruct (dfa_backup state (head_code l)) eqn:Hbk.
  - destruct state; cbn [dfa_backup] in Hbk; try discriminate; exact Hcl.
  - destruct (Hb eq_refl) as [Hnc Hopen].
    destruct l as [|c r]; [reflexivity|]. cbn [tl head_code] in *.
    rewrite code_eqb in Hopen. cbn [comments_closed] in Hcl.
    rewrite Hopen in Hcl.
    destruct state; cbn [in_comment] in Hcl; try exact Hcl; congruence.
Qed.

End ScanProgress.

Section ScanResults.

Variable MAXTOKENLEN : nat.

Lemma getToken_scan fuel s l tok str s' :
  presents s l ->
  getToken MAXTOKENLEN fuel s = Some (tok, str, s') ->
  exists l', scan_loop MAXTOKENLEN fuel START ENDFILE [] l = Some (tok, str, l')
             /\ presents s' l'.
Proof.
  intros Hs Hget.
  pose proof (getToken_loop_refines MAXTOKENLEN fuel START ENDFILE [] s l Hs)
    as R.
  unfold getToken in Hget.
  destruct (scan_loop MAXTOKENLEN fuel START ENDFILE [] l)
    as [[[k0 str0] l0]|].
  - destruct R as (s0 & E & P). rewrite E in Hget. inversion Hget; subst.
    now exists l0.
  - congruence.
Qed.

Lemma TokenType_eqb_eq a b : TokenType_eqb a b = true <-> a = b.
Proof. destruct a, b; simpl; split; congruence. Qed.

(** Inside a comment that is not closed the loop goes on for ever. *)
Lemma scan_loop_INCOMMENT_open body : forall fuel currentToken ts,
  forallb not_close body = true ->
  scan_loop MAXTOKENLEN fuel INCOMMENT currentToken ts body = None.
Proof.
  induction body as [|c body IH]; intros fuel currentToken ts Hb.
  - induction fuel as [|fuel IHf]; [reflexivity|]. exact IHf.
  - destruct fuel as [|fuel]; [reflexivity|].
    cbn [forallb] in Hb. apply andb_true_iff in Hb as [Hc Hb].
    cbn [scan_loop head_code].
    rewrite dfa_delta_INCOMMENT, (not_close_code _ Hc).
    unfold after_step. cbn [dfa_backup tl store andb]. now apply IH.
Qed.

(** The driver loop ends with the end-of-file token, after at most one call
    per character and one more; in a text without the byte 255 nothing is
    left then. *)
Lemma scan_file_ends calls : forall fuel l s,
  (length l < calls)%nat -> (length l < fuel)%nat ->
  presents s l ->
  comments_closed false l = true ->
  exists toks s',
    scan_file MAXTOKENLEN calls fuel s = Some (toks ++ [(ENDFILE, [])], s') /\
    Forall (fun t => fst t <> ENDFILE) toks /\
    (length toks <= length l)%nat /\
    (eof_free l = true -> presents s' []).
Proof.
  induction calls as [|calls IH]; intros fuel l s Hc Hf Hs Hcl; [lia|].
  destruct (scan_loop_returns MAXTOKENLEN l START ENDFILE []
              ltac:(discriminate) Hcl) as [[[tok str] l'] E].
  apply (scan_loop_more MAXTOKENLEN _ (fuel - S (length l))) in E.
  replace (S (length l) + (fuel - S (length l)))%nat with fuel in E by lia.
  destruct (getToken_of_scan MAXTOKENLEN _ _ _ _ _ _ Hs E) as (s' & G & Hs').
  pose proof (getToken_loop_shape MAXTOKENLEN fuel START ENDFILE [] s tok str
                s' eq_refl G) as Hshape.
  destruct (scan_loop_rest MAXTOKENLEN _ START _ _ _ _ _ _
              ltac:(discriminate) E) as (_ & Hend & _).
  cbn [scan_file]. rewrite G.
  destruct (TokenType_eqb tok ENDFILE) eqn:Et; cbn [negb].
  - apply TokenType_eqb_eq in Et. subst tok. cbn [lexeme_shape] in Hshape.
    subst str.
    exists [], s'. split; [reflexivity|]. split; [constructor|].
    split; [simpl; lia|].
    intros He. now rewrite (Hend eq_refl He) in Hs'.
  - assert (Hne : tok <> ENDFILE).
    { intros ->. now rewrite (proj2 (TokenType_eqb_eq _ _) eq_refl) in Et. }
    destruct (scan_loop_progress MAXTOKENLEN _ _ _ _ _ E Hne)
      as (c & consumed & Hl).
    assert (Hlen : (length l' < length l)%nat).
    { rewrite Hl. cbn [length]. rewrite length_app. lia. }
    pose proof (scan_loop_comments_closed MAXTOKENLEN _ START _ _ _ _ _ _
                  ltac:(discriminate) E Hcl) as Hcl'.
    destruct (IH fuel l' s' ltac:(lia) ltac:(lia) Hs' Hcl')
      as (toks & s'' & F & Hall & Hn & Hs'').
    rewrite F. exists ((tok, str) :: toks), s''.
    split; [reflexivity|]. split; [now constructor|].
    split; [cbn [length]; lia|].
    intros He. apply Hs''. rewrite Hl in He.
    change (c :: consumed ++ l') with ((c :: consumed) ++ l') in He.
    now apply eof_free_app in He.
Qed.

End ScanResults.

(** X9. On a well formed line buffer a call of getToken consumes a prefix of
    the text to be delivered and leaves the rest; a token other than the
    end-of-file token consumes at least one character; and when the text
    holds no byte 255 (which is read as EOF), the end-of-file token is
    returned only when nothing is left. *)
Theorem getToken_consumes_prefix MAXTOKENLEN s l fuel tok str s' :
  presents s l ->
  getToken MAXTOKENLEN fuel s = Some (tok, str, s') ->
  wf s' /\
  (exists consumed,
     l = consumed ++ remaining s' /\ (tok <> ENDFILE -> consumed <> [])) /\
  (tok = ENDFILE -> eof_free l = true -> remaining s' = []).
Proof.
  intros Hs G.
  destruct (getToken_scan MAXTOKENLEN _ _ _ _ _ _ Hs G) as (l' & E & [Hwf Hr]).
  rewrite Hr. split; [exact Hwf|].
  destruct (scan_loop_rest MAXTOKENLEN _ START _ _ _ _ _ _
              ltac:(discriminate) E) as ([c0 Hc0] & Hend & _).
  split; [|exact Hend].
  destruct (TokenType_eqb tok ENDFILE) eqn:Et.
  - apply TokenType_eqb_eq in Et. exists c0. split; [exact Hc0|congruence].
  - assert (Hne : tok <> ENDFILE).
    { intros ->. now rewrite (proj2 (TokenType_eqb_eq _ _) eq_refl) in Et. }
    destruct (scan_loop_progress MAXTOKENLEN _ _ _ _ _ E Hne)
      as (c & consumed & Hl).
    exists (c :: consumed). split; [exact Hl|discriminate].
Qed.

Lemma getToken_consumes_prefix_witness :
  exists consumed,
    lit "  ab+c" = consumed ++ lit "+c" /\ (ID <> ENDFILE -> consumed <> []).
Proof.
  refine (proj1 (proj2 (getToken_consumes_prefix sample_MAXTOKENLEN
            (initial_scanner (lit "  ab+c")) (lit "  ab+c") 6 ID (lit "ab")
            (mkScanner [] (lit "  ab+c") 4 6 false 1) _ _))).
  - unfold presents, wf, remaining; simpl.
    repeat split; try lia; try reflexivity; discriminate.
  - vm_compute. reflexivity.
Defined.

(** X10. Maximal munch: on a well formed line buffer, the character left to
    be delivered after a NUM token is not a digit, and the character left
    after an ID or reserved word token is not a letter. *)
Theorem getToken_maximal_munch MAXTOKENLEN s l fuel tok str s' :
  presents s l ->
  getToken MAXTOKENLEN fuel s = Some (tok, str, s') ->
  (tok = NUM -> isdigit (head_code (remaining s')) = false) /\
  (is_word_kind tok = true -> isalpha (head_code (remaining s')) = false).
Proof.
  intros Hs G.
  destruct (getToken_scan MAXTOKENLEN _ _ _ _ _ _ Hs G) as (l' & E & [Hwf Hr]).
  rewrite Hr.
  destruct (scan_loop_rest MAXTOKENLEN _ START _ _ _ _ _ _
              ltac:(discriminate) E) as (_ & _ & Hn & Hw).
  now split.
Qed.

Lemma getToken_maximal_munch_witness :
  (NUM = NUM ->
   isdigit (head_code (remaining (mkScanner [] (lit "12ab") 2 4 false 1)))
   = false) /\
  (is_word_kind NUM = true ->
   isalpha (head_code (remaining (mkScanner [] (lit "12ab") 2 4 false 1)))
   = false).
Proof.
  refine (getToken_maximal_munch sample_MAXTOKENLEN
            (initial_scanner (lit "12ab")) (lit "12ab") 6 NUM (lit "12")
            (mkScanner [] (lit "12ab") 2 4 false 1) _ _).
  - unfold presents, wf, remaining; simpl.
    repeat split; try lia; try reflexivity; discriminate.
  - vm_compute. reflexivity.
Defined.

(** X11. On a well formed line buffer that presents a text whose comments
    are all closed, getToken returns, within one iteration of its loop per
    character of the text and one more. *)
Theorem getToken_terminates MAXTOKENLEN s l fuel :
  presents s l ->
  comments_closed false l = true ->
  (length l + 1 <= fuel)%nat ->
  exists tok str s', getToken MAXTOKENLEN fuel s = Some (tok, str, s').
Proof.
  intros Hs Hcl Hf.
  destruct (getToken_returns MAXTOKENLEN s l Hs Hcl) as (tok & str & s' & G).
  exists tok, str, s'. unfold getToken in *.
  replace fuel with (S (length l) + (fuel - S (length l)))%nat by lia.
  now apply getToken_loop_more.
Qed.

Lemma getToken_terminates_witness :
  exists tok str s',
    getToken sample_MAXTOKENLEN 20 (initial_scanner (lit "{a{b} x := y"))
    = Some (tok, str, s').
Proof.
  refine (getToken_terminates sample_MAXTOKENLEN
            (initial_scanner (lit "{a{b} x := y")) (lit "{a{b} x := y") 20
            _ _ _).
  - unfold presents, wf, remaining; simpl.
    repeat split; try lia; try reflexivity; discriminate.
  - reflexivity.
  - simpl; lia.
Defined.

(** X12. On a well formed line buffer, when white space and comments are
    followed by a comment that is not closed before the end of the input,
    getToken does not return, whatever the fuel. *)
Theorem unclosed_comment_never_returns MAXTOKENLEN s pre body fuel :
  presents s (pre ++ "{"%char :: body) ->
  is_blank false pre = true ->
  forallb not_close body = true ->
  getToken MAXTOKENLEN fuel s = None.
Proof.
  intros Hs Hb Hbody. eapply getToken_None_of_scan; [exact Hs|].
  apply (scan_loop_None_less MAXTOKENLEN fuel (length pre + 1)).
  replace (fuel + (length pre + 1))%nat with (length pre + S fuel)%nat by lia.
  rewrite (scan_loop_blank MAXTOKENLEN pre false) by assumption.
  cbn [scan_loop head_code]. fold (ch "{"). rewrite dfa_delta_START_open.
  unfold after_step. cbn [dfa_backup tl store andb].
  now apply scan_loop_INCOMMENT_open.
Qed.

Lemma unclosed_comment_never_returns_witness :
  getToken sample_MAXTOKENLEN 1000
    (initial_scanner (lit "{done} { not done")) = None.
Proof.
  refine (unclosed_comment_never_returns sample_MAXTOKENLEN
            (initial_scanner (lit "{done} { not done"))
            (lit "{done} ") (lit " not done") 1000 _ _ _).
  - unfold presents, wf, remaining; simpl.
    repeat split; try lia; try reflexivity; discriminate.
  - reflexivity.
  - reflexivity.
Defined.

(** X13. The driver loop of main, [while (getToken() != ENDFILE);], ends on
    every text without NUL characters whose comments are all closed: the
    tokens returned are tokens other than the end-of-file token, at most one
    per character of the text, followed by the end-of-file token. When the
    text holds no byte 255 either, nothing is left to be delivered then (a
    byte 255 outside a comment is read as EOF and ends the scan where it
    stands). *)
Theorem scan_file_terminates MAXTOKENLEN file :
  nul_free file = true ->
  comments_closed false file = true ->
  exists toks s',
    scan_file MAXTOKENLEN (length file + 1) (length file + 1)
      (initial_scanner file)
    = Some (toks ++ [(ENDFILE, [])], s') /\
    Forall (fun t => fst t <> ENDFILE) toks /\
    (length toks <= length file)%nat /\
    (eof_free file = true -> presents s' []).
Proof.
  intros Hnf Hcl.
  apply (scan_file_ends MAXTOKENLEN _ _ file); try lia; [|exact Hcl].
  now apply wf_initial.
Qed.

Lemma scan_file_terminates_witness :
  exists toks s',
    scan_file sample_MAXTOKENLEN (length (lit "x := 12;") + 1)
      (length (lit "x := 12;") + 1) (initial_scanner (lit "x := 12;"))
    = Some (toks ++ [(ENDFILE, [])], s') /\
    Forall (fun t => fst t <> ENDFILE) toks /\
    (length toks <= length (lit "x := 12;"))%nat /\
    (eof_free (lit "x := 12;") = true -> presents s' []).
Proof.
  refine (scan_file_terminates sample_MAXTOKENLEN (lit "x := 12;") _ _);
    reflexivity.
Defined.

(** * Further properties of the line buffer *)

Lemma next_codes_nil k : forall s,
  presents s [] -> next_codes k s = repeat EOF k.
Proof.
  induction k as [|k IH]; intros s Hs; [reflexivity|].
  destruct (getNextChar_nil s Hs) as (s1 & E & Hs1 & _).
  cbn [next_codes repeat]. rewrite E. now rewrite IH.
Qed.

Lemma next_codes_presents l : forall k s,
  presents s l ->
  next_codes (length l + k) s = map int_of_char l ++ repeat EOF k.
Proof.
  induction l as [|c l IH]; intros k s Hs.
  - now apply next_codes_nil.
  - destruct (getNextChar_cons s c l Hs) as (s1 & E & Hs1 & _).
    cbn [length Nat.add next_codes map app]. rewrite E. now rewrite IH.
Qed.

(** X14. Reading in chunks is transparent: from the start of a file without
    NUL characters, successive calls of getNextChar return the values of
    the characters of the file in order, whatever the lengths of its lines,
    and then EOF for ever. The values are those of signed [char]: a byte
    from 128 on is returned as a negative number, the byte 233 as -23, and
    the byte 255 as -1, which the caller cannot tell from EOF. *)
Theorem getNextChar_delivers_file file k :
  nul_free file = true ->
  next_codes (length file + k) (initial_scanner file)
  = map int_of_char file ++ repeat EOF k.
Proof.
  intros Hnf. apply next_codes_presents. now apply wf_initial.
Qed.

Lemma getNextChar_delivers_file_witness :
  next_codes (length (repeat "a"%char 300 ++ ["233"%char; "b"%char]) + 2)
    (initial_scanner (repeat "a"%char 300 ++ ["233"%char; "b"%char]))
  = map int_of_char (repeat "a"%char 300 ++ ["233"%char; "b"%char])
    ++ repeat EOF 2.
Proof.
  refine (getNextChar_delivers_file
            (repeat "a"%char 300 ++ ["233"%char; "b"%char]) 2 _).
  vm_compute. reflexivity.
Defined.

Lemma strlen_nonneg l : 0 <= strlen l.
Proof.
  induction l as [|c l IH]; cbn [strlen]; [lia|].
  destruct (Ascii.eqb c NUL); lia.
Qed.

Lemma strlen_length l : strlen l <= Z.of_nat (length l).
Proof.
  induction l as [|c l IH]; cbn [strlen length]; [lia|].
  destruct (Ascii.eqb c NUL); lia.
Qed.




Lemma getNextChar_within_bounds s :
  within_bounds s ->
  within_bounds (snd (getNextChar s)) /\
  (EOF_flag (snd (getNextChar s)) = true \/ 1 <= linepos (snd (getNextChar s))).
Proof.
  intros (Hpos & Hsize & Hlen). unfold getNextChar.
  destruct (linepos s <? bufsize s) eqn:Hlt; cbn [negb snd].
  - apply Z.ltb_lt in Hlt. unfold within_bounds.
    cbn [linepos bufsize lineBuf EOF_flag].
    repeat split; try lia; try assumption; right; lia.
  - unfold refill.
    destruct (fgets (BUFLEN - 1) (source s)) as [[line rest]|] eqn:Hf;
      cbn [snd]; unfold within_bounds; cbn [linepos bufsize lineBuf EOF_flag].
    + destruct (fgets_Some _ _ _ Hf) as [_ Hl].
      pose proof (strlen_nonneg line). unfold BUFLEN.
      repeat split; try lia; right; lia.
    + repeat split; try lia; try assumption; now left.
Qed.

Lemma run_ops_within_bounds ops : forall got s,
  within_bounds s ->
  (got = true -> EOF_flag s = true \/ 1 <= linepos s) ->
  disciplined got ops = true ->
  within_bounds (run_ops ops s).
Proof.
  induction ops as [|o ops IH]; intros got s Hb Hgot Hd; [exact Hb|].
  destruct o; cbn [disciplined] in Hd; cbn [run_ops fold_left run_op].
  - destruct (getNextChar_within_bounds s Hb) as [H1 H2].
    apply (IH true); auto.
  - apply andb_true_iff in Hd as [-> Hd].
    apply (IH false); [|discriminate|exact Hd].
    unfold ungetNextChar. destruct (EOF_flag s) eqn:Hfl; cbn [negb];
      [exact Hb|].
    destruct (Hgot eq_refl) as [Hg|Hg]; [discriminate|].
    destruct Hb as (Hpos & Hsize & Hlen). unfold within_bounds.
    cbn [linepos bufsize lineBuf]. repeat split; try lia; assumption.
Qed.

(** X16. For every file, NUL characters or not, after every sequence of
    getNextChar and ungetNextChar in which each ungetNextChar directly
    follows a getNextChar: the line held in lineBuf, with its terminating
    NUL, fits in the BUFLEN bytes of the array; bufsize is the length of the
    C string in lineBuf; the cursor is not negative and at most one past
    bufsize; and when the next getNextChar reads lineBuf[linepos], linepos
    is the index of a character of the line. *)
Theorem lineBuf_accesses_in_bounds file ops :
  disciplined false ops = true ->
  let s := run_ops ops (initial_scanner file) in
  Z.of_nat (length (lineBuf s)) + 1 < BUFLEN /\
  bufsize s = strlen (lineBuf s) /\
  0 <= linepos s <= bufsize s + 1 /\
  (linepos s < bufsize s ->
   (Z.to_nat (linepos s) < length (lineBuf s))%nat).
Proof.
  intros Hd s.
  assert (Hb : within_bounds s).
  { apply (run_ops_within_bounds ops false); [|discriminate|exact Hd].
    unfold within_bounds, BUFLEN; simpl. lia. }
  destruct Hb as (Hpos & Hsize & Hlen).
  pose proof (strlen_length (lineBuf s)).
  repeat split; try lia; assumption.
Qed.

Lemma lineBuf_accesses_in_bounds_witness :
  let s := run_ops [NextChar; PutBack; NextChar; NextChar]
             (initial_scanner (repeat "a"%char 300 ++ [NUL; "b"%char])) in
  Z.of_nat (length (lineBuf s)) + 1 < BUFLEN /\
  bufsize s = strlen (lineBuf s) /\
  0 <= linepos s <= bufsize s + 1 /\
  (linepos s < bufsize s ->
   (Z.to_nat (linepos s) < length (lineBuf s))%nat).
Proof.
  refine (lineBuf_accesses_in_bounds
            (repeat "a"%char 300 ++ [NUL; "b"%char])
            [NextChar; PutBack; NextChar; NextChar] _).
  reflexivity.
Defined.

(** * Further properties of the reserved word lookup *)

Lemma streq_table s w k :
  In (w, k) reservedWords -> streq s w = true <-> cstr s = w.
Proof.
  intros Hin. unfold streq.
  rewrite (cstr_nul_free w (reservedWords_nul_free w k Hin)).
  apply list_ascii_eqb_eq.
Qed.

(** X17. The reserved word lookup returns the kind of a word of the table
    exactly when its argument, as a C string, is that word, letter for
    letter; it returns ID exactly when its argument is none of the words of
    the table. *)
Theorem reservedLookup_characterised s k :
  reservedLookup s = k <->
  In (cstr s, k) reservedWords \/
  (k = ID /\ forall w k', In (w, k') reservedWords -> cstr s <> w).
Proof.
  rewrite reservedLookup_find.
  destruct (find (fun p => streq s (fst p)) reservedWords) as [[w k0]|] eqn:F.
  - apply find_some in F as [Hin Heq]. cbn [fst snd] in *.
    apply (streq_table s w k0 Hin) in Heq. split.
    + intros <-. left. now rewrite Heq.
    + intros [H|[-> H]].
      * rewrite Heq in H. rewrite <- (reservedLookup_match w k0 Hin).
        now apply reservedLookup_match.
      * now contradiction (H w k0 Hin).
  - split.
    + intros <-. right. split; [reflexivity|]. intros w k' Hin Heq.
      pose proof (find_none _ _ F (w, k') Hin) as Hn. cbn [fst] in Hn.
      apply (streq_table s w k' Hin) in Heq. congruence.
    + intros [H|[-> _]]; [|reflexivity].
      pose proof (find_none _ _ F (cstr s, k) H) as Hn. cbn [fst] in Hn.
      assert (Ht : streq s (cstr s) = true)
        by now apply (streq_table s (cstr s) k H).
      congruence.
Qed.

(** * Further properties of the driver *)

Section DriverProperties.

Variable MAXTOKENLEN : nat.

(** Whether the text left after a token has all its comments closed is what
    it was for the text before the token. *)
Lemma scan_loop_comments fuel :
  forall state currentToken ts l tok str l',
  state <> DONE ->
  scan_loop MAXTOKENLEN fuel state currentToken ts l = Some (tok, str, l') ->
  comments_closed false l' = comments_closed (in_comment state) l.
Proof.
  induction fuel as [|fuel IH]; intros state currentToken ts l tok str l' Hst;
    [discriminate|].
  cbn [scan_loop].
  destruct (dfa_delta state currentToken (head_code l))
    as [[state' tok'] save] eqn:D.
  assert (Hrec : state' <> DONE ->
            scan_loop MAXTOKENLEN fuel state' tok'
              (store MAXTOKENLEN save ts (head_code l)) (after_step state l)
            = Some (tok, str, l') ->
            comments_closed false l' = comments_closed (in_comment state) l).
  { intros Hst' H. apply IH in H; [|exact Hst']. rewrite H.
    destruct l as [|c r].
    - cbn [head_code] in D. destruct (in_comment state) eqn:Hin.
      + destruct state; try discriminate Hin.
        rewrite dfa_delta_INCOMMENT in D. cbn in D. inversion D; subst.
        reflexivity.
      + destruct (dfa_delta_EOF state currentToken Hst Hin)
          as (t0 & s0 & E).
        rewrite E in D. inversion D. congruence.
    - cbn [head_code] in D.
      destruct (dfa_delta_continue _ _ _ _ _ _ Hst D Hst')
        as [Hb Hin].
      unfold after_step. cbn [head_code]. rewrite Hb. cbn [tl]. rewrite Hin.
      cbn [comments_closed]. now destruct (in_comment state). }
  destruct state'; try (apply Hrec; discriminate).
  intros H. inversion H; subst tok str l'. clear H Hrec.
  destruct (dfa_delta_DONE _ _ _ _ _ Hst D) as [_ Hb].
  unfold after_step. destruct (dfa_backup state (head_code l)) eqn:Hbk.
  - destruct state; cbn [dfa_backup] in Hbk; try discriminate; reflexivity.
  - destruct (Hb eq_refl) as [Hnc Hopen].
    assert (Hin : in_comment state = false)
      by (destruct state; try reflexivity; now contradiction Hnc).
    rewrite Hin.
    destruct l as [|c r]; [reflexivity|]. cbn [tl head_code] in *.
    rewrite code_eqb in Hopen. cbn [comments_closed]. now rewrite Hopen.
Qed.

(** The tokens returned by the driver loop: tokens other than the
    end-of-file token, then the end-of-file token. *)
Lemma scan_file_tokens calls : forall fuel s toks s',
  scan_file MAXTOKENLEN calls fuel s = Some (toks, s') ->
  exists toks', toks = toks' ++ [(ENDFILE, [])] /\
                Forall (fun t => fst t <> ENDFILE) toks'.
Proof.
  induction calls as [|calls IH]; intros fuel s toks s'; [discriminate|].
  cbn [scan_file].
  destruct (getToken MAXTOKENLEN fuel s) as [[[tok str] s1]|] eqn:G;
    [|discriminate].
  pose proof (getToken_loop_shape MAXTOKENLEN fuel START ENDFILE [] s tok str
                s1 eq_refl G) as Hshape.
  destruct (TokenType_eqb tok ENDFILE) eqn:Et; cbn [negb].
  - apply TokenType_eqb_eq in Et. subst tok. cbn [lexeme_shape] in Hshape.
    subst str. intros H. inversion H; subst. exists []. now split.
  - destruct (scan_file MAXTOKENLEN calls fuel s1) as [[toks1 s2]|] eqn:F;
      [|discriminate].
    intros H. inversion H; subst.
    destruct (IH _ _ _ _ F) as (toks' & -> & Hall).
    exists ((tok, str) :: toks'). split; [reflexivity|].
    constructor; [|exact Hall]. cbn [fst]. intros ->.
    now rewrite (proj2 (TokenType_eqb_eq _ _) eq_refl) in Et.
Qed.

(** With a comment that is not closed, the driver loop does not end. *)
Lemma scan_file_open calls : forall fuel s l,
  presents s l ->
  eof_free l = true ->
  comments_closed false l = false ->
  scan_file MAXTOKENLEN calls fuel s = None.
Proof.
  induction calls as [|calls IH]; intros fuel s l Hs He Hcl; [reflexivity|].
  cbn [scan_file].
  destruct (getToken MAXTOKENLEN fuel s) as [[[tok str] s1]|] eqn:G;
    [|reflexivity].
  destruct (getToken_scan MAXTOKENLEN _ _ _ _ _ _ Hs G) as (l' & E & Hs1).
  pose proof (scan_loop_comments _ START _ _ _ _ _ _
                ltac:(discriminate) E) as Hc.
  cbn [in_comment] in Hc. rewrite Hcl in Hc.
  destruct (scan_loop_rest MAXTOKENLEN _ START _ _ _ _ _ _
              ltac:(discriminate) E) as ([c0 Hc0] & Hend & _).
  destruct (TokenType_eqb tok ENDFILE) eqn:Et; cbn [negb].
  - apply TokenType_eqb_eq in Et. rewrite (Hend Et He) in Hc. discriminate.
  - rewrite Hc0 in He. apply eof_free_app in He as [_ He'].
    now rewrite (IH fuel s1 l' Hs1 He' Hc).
Qed.

End DriverProperties.

Lemma cstr_is_nul_free s : nul_free (cstr s) = true.
Proof.
  induction s as [|c s IH]; [reflexivity|]. cbn [cstr].
  destruct (Ascii.eqb c NUL) eqn:E; [reflexivity|].
  cbn [nul_free forallb]. rewrite E. exact IH.
Qed.

Lemma strlen_cstr s : strlen s = Z.of_nat (length (cstr s)).
Proof.
  induction s as [|c s IH]; [reflexivity|]. cbn [strlen cstr].
  destruct (Ascii.eqb c NUL); [reflexivity|].
  cbn [length]. rewrite Nat2Z.inj_succ, IH. lia.
Qed.

(** X18. When a comment is not closed in a file that holds no NUL character
    and no byte 255 (which is read as EOF and would end the scan), the
    driver loop of main does not end, however many calls of getToken and
    iterations it is given: the tokens before the comment are returned, the
    end-of-file token never is. *)
Theorem scan_file_never_ends MAXTOKENLEN file calls fuel :
  nul_free file = true ->
  eof_free file = true ->
  comments_closed false file = false ->
  scan_file MAXTOKENLEN calls fuel (initial_scanner file) = None.
Proof.
  intros Hnf He Hcl.
  exact (scan_file_open MAXTOKENLEN calls fuel _ file (wf_initial file Hnf)
           He Hcl).
Qed.

Lemma scan_file_never_ends_witness :
  scan_file sample_MAXTOKENLEN 100 100 (initial_scanner (lit "x := 1 { y"))
  = None.
Proof.
  refine (scan_file_never_ends sample_MAXTOKENLEN (lit "x := 1 { y") 100 100
            _ _ _); reflexivity.
Defined.

(** X19. The name of the file that main opens: when the argument fits, the
    name is a C string of fewer than 120 characters that contains a dot,
    it starts with the argument, and it is left as it is when given to main
    again. *)
Theorem source_name_has_extension arg pgm :
  source_name arg = Some pgm ->
  nul_free pgm = true /\
  Z.of_nat (length pgm) < pgm_size /\
  strchr pgm "." = true /\
  (exists ext, pgm = cstr arg ++ ext) /\
  source_name pgm = Some pgm.
Proof.
  unfold source_name.
  destruct (strlen arg + 1 <=? pgm_size) eqn:H1; cbn [negb]; [|discriminate].
  apply Z.leb_le in H1.
  assert (Hsame : forall p, nul_free p = true ->
            Z.of_nat (length p) + 1 <= pgm_size -> strchr p "." = true ->
            (if negb (strlen p + 1 <=? pgm_size) then None
             else if negb (strchr p ".") then
               if negb (strlen p + strlen (lit ".tny") + 1 <=? pgm_size)
               then None else Some (cstr p ++ lit ".tny")
             else Some (cstr p)) = Some p).
  { intros p Hp Hl Hd. rewrite (strlen_nul_free p Hp), Hd.
    replace (Z.of_nat (length p) + 1 <=? pgm_size) with true
      by (symmetry; apply Z.leb_le; lia).
    cbn [negb]. now rewrite (cstr_nul_free p Hp). }
  rewrite strlen_cstr in H1.
  destruct (strchr arg ".") eqn:Hdot; cbn [negb].
  - intros H. injection H as <-.
    pose proof (cstr_is_nul_free arg) as Hnf.
    assert (Hd : strchr (cstr arg) "." = true).
    { unfold strchr in *. now rewrite (cstr_nul_free _ Hnf). }
    split; [exact Hnf|]. split; [lia|]. split; [exact Hd|].
    split; [exists []; now rewrite app_nil_r|].
    apply Hsame; [assumption|lia|assumption].
  - destruct (strlen arg + strlen (lit ".tny") + 1 <=? pgm_size) eqn:H2;
      cbn [negb]; [|discriminate].
    apply Z.leb_le in H2. rewrite strlen_cstr in H2.
    change (strlen (lit ".tny")) with 4 in H2.
    intros H. injection H as <-.
    assert (Hnf : nul_free (cstr arg ++ lit ".tny") = true).
    { apply nul_free_app. split; [apply cstr_is_nul_free|reflexivity]. }
    assert (Hlen : Z.of_nat (length (cstr arg ++ lit ".tny")) + 1 <= pgm_size).
    { rewrite length_app, Nat2Z.inj_add. change (Z.of_nat (length (lit ".tny")))
        with 4. lia. }
    assert (Hd : strchr (cstr arg ++ lit ".tny") "." = true).
    { unfold strchr. rewrite (cstr_nul_free _ Hnf), existsb_app.
      apply orb_true_iff. now right. }
    change ["."%char; "t"%char; "n"%char; "y"%char] with (lit ".tny").
    split; [exact Hnf|]. split; [lia|]. split; [exact Hd|].
    split; [now exists (lit ".tny")|].
    apply Hsame; assumption.
Qed.

Lemma source_name_has_extension_witness :
  nul_free (lit "sample.tny") = true /\
  Z.of_nat (length (lit "sample.tny")) < pgm_size /\
  strchr (lit "sample.tny") "." = true /\
  (exists ext, lit "sample.tny" = cstr (lit "sample") ++ ext) /\
  source_name (lit "sample.tny") = Some (lit "sample.tny").
Proof.
  refine (source_name_has_extension (lit "sample") (lit "sample.tny") _).
  reflexivity.
Defined.

Lemma source_name_pgm_name arg pgm :
  source_name arg = Some pgm -> pgm_name arg = pgm.
Proof.
  unfold source_name, pgm_name.
  destruct (negb (strlen arg + 1 <=? pgm_size)); [discriminate|].
  destruct (negb (strchr arg ".")).
  - destruct (negb (strlen arg + strlen (lit ".tny") + 1 <=? pgm_size));
      [discriminate|]. now intros H; injection H.
  - now intros H; injection H.
Qed.

Lemma pgm_name_has_dot arg : strchr (pgm_name arg) "." = true.
Proof.
  unfold pgm_name. destruct (strchr arg ".") eqn:Hdot; cbn [negb].
  - unfold strchr in *. now rewrite (cstr_nul_free _ (cstr_is_nul_free arg)).
  - assert (Hnf : nul_free (cstr arg ++ lit ".tny") = true).
    { apply nul_free_app. split; [apply cstr_is_nul_free|reflexivity]. }
    unfold strchr. rewrite (cstr_nul_free _ Hnf), existsb_app.
    apply orb_true_iff. now right.
Qed.

(** X20. main returns 0 only when it was given one argument, fopen has found
    a file under the name written in pgm, which is the argument, with the
    extension when the argument holds no dot, and so always holds a dot, and
    getToken has returned the end-of-file token; the tokens scanned before
    it are not end-of-file tokens. This holds whether the name fits in pgm
    or not. *)
Theorem main_return_0 MAXTOKENLEN fs argv calls fuel pgm tokens :
  main MAXTOKENLEN fs argv calls fuel = return_0 pgm tokens ->
  length argv = 2%nat /\
  pgm = pgm_name (nth 1 argv []) /\
  strchr pgm "." = true /\
  (exists file, fs pgm = Some file) /\
  exists toks, tokens = toks ++ [(ENDFILE, [])] /\
               Forall (fun t => fst t <> ENDFILE) toks.
Proof.
  unfold main.
  destruct (length argv =? 2)%nat eqn:Hargc; cbn [negb]; [|discriminate].
  apply Nat.eqb_eq in Hargc. cbv zeta.
  destruct (fs (pgm_name (nth 1 argv []))) as [file|] eqn:Hfs; [|discriminate].
  destruct (scan_file MAXTOKENLEN calls fuel (initial_scanner file))
    as [[toks s']|] eqn:F; [|discriminate].
  intros H. injection H as <- <-.
  split; [exact Hargc|]. split; [reflexivity|].
  split; [apply pgm_name_has_dot|].
  split; [now exists file|].
  exact (scan_file_tokens MAXTOKENLEN _ _ _ _ _ F).
Qed.

Lemma main_return_0_witness :
  length [lit "tiny"; lit "sample"] = 2%nat /\
  lit "sample.tny" = pgm_name (nth 1 [lit "tiny"; lit "sample"] []) /\
  strchr (lit "sample.tny") "." = true /\
  (exists file, one_file (lit "sample.tny") (lit "x") (lit "sample.tny")
                = Some file) /\
  exists toks, [(ID, lit "x"); (ENDFILE, [])] = toks ++ [(ENDFILE, [])] /\
               Forall (fun t => fst t <> ENDFILE) toks.
Proof.
  refine (main_return_0 sample_MAXTOKENLEN
            (one_file (lit "sample.tny") (lit "x"))
            [lit "tiny"; lit "sample"] 3 3 (lit "sample.tny")
            [(ID, lit "x"); (ENDFILE, [])] _).
  vm_compute. reflexivity.
Defined.

(** X21. Given one argument that names, after the extension has been added
    if it has no dot, a file without NUL characters whose comments are all
    closed, main returns 0, within one call of getToken per character of
    the file and one more; the last token scanned is the end-of-file
    token. *)
Theorem main_scans_file MAXTOKENLEN fs prog arg pgm file :
  source_name arg = Some pgm ->
  fs pgm = Some file ->
  nul_free file = true ->
  comments_closed false file = true ->
  exists toks,
    main MAXTOKENLEN fs [prog; arg] (length file + 1) (length file + 1)
    = return_0 pgm (toks ++ [(ENDFILE, [])]) /\
    Forall (fun t => fst t <> ENDFILE) toks /\
    (length toks <= length file)%nat.
Proof.
  intros Hname Hfs Hnf Hcl. unfold main. cbn [length Nat.eqb negb nth].
  cbv zeta. rewrite (source_name_pgm_name arg pgm Hname), Hfs.
  destruct (scan_file_ends MAXTOKENLEN (length file + 1) (length file + 1)
              file (initial_scanner file) ltac:(lia) ltac:(lia)
              (wf_initial file Hnf) Hcl) as (toks & s' & F & Hall & Hlen & _).
  rewrite F. now exists toks.
Qed.

Lemma main_scans_file_witness :
  exists toks,
    main sample_MAXTOKENLEN (one_file (lit "sample.tny") (lit "x := 12;"))
      [lit "tiny"; lit "sample"] (length (lit "x := 12;") + 1)
      (length (lit "x := 12;") + 1)
    = return_0 (lit "sample.tny") (toks ++ [(ENDFILE, [])]) /\
    Forall (fun t => fst t <> ENDFILE) toks /\
    (length toks <= length (lit "x := 12;"))%nat.
Proof.
  refine (main_scans_file sample_MAXTOKENLEN
            (one_file (lit "sample.tny") (lit "x := 12;"))
            (lit "tiny") (lit "sample") (lit "sample.tny") (lit "x := 12;")
            _ _ _ _); reflexivity.
Defined.

(** * Further properties of the listing *)





(** * NUL characters in the source *)

Lemma read_line_newline n : forall l rest,
  no_newline l = true -> (length l < n)%nat ->
  read_line n (l ++ newline :: rest) = (l ++ [newline], rest).
Proof.
  induction n as [|n IH]; intros l rest Hnl Hlen; [lia|].
  destruct l as [|c l].
  - cbn [app read_line]. now rewrite Ascii.eqb_refl.
  - cbn [no_newline forallb] in Hnl. apply andb_true_iff in Hnl as [Hc Hnl].
    cbn [app read_line]. destruct (Ascii.eqb c newline); [discriminate|].
    rewrite IH; [reflexivity|exact Hnl|simpl in Hlen; lia].
Qed.

Lemma strlen_app_NUL pre l :
  nul_free pre = true -> strlen (pre ++ NUL :: l) = Z.of_nat (length pre).
Proof.
  induction pre as [|c pre IH]; [reflexivity|].
  cbn [nul_free forallb]. fold (nul_free pre). intros H.
  apply andb_true_iff in H as [Hc Hp].
  cbn [app strlen length]. destruct (Ascii.eqb c NUL); [discriminate|].
  rewrite IH, Nat2Z.inj_succ by assumption. lia.
Qed.

Lemma skipn_nth (l : list ascii) : forall p,
  (p < length l)%nat -> skipn p l = nth p l NUL :: skipn (S p) l.
Proof.
  induction l as [|a l IH]; intros [|p] H; simpl in *; try lia.
  - reflexivity.
  - apply IH. lia.
Qed.

(** Reading within the current line. *)
Lemma next_codes_line j : forall s m,
  0 <= linepos s ->
  linepos s + Z.of_nat j <= bufsize s ->
  bufsize s <= Z.of_nat (length (lineBuf s)) ->
  next_codes (j + m) s
  = map int_of_char (firstn j (skipn (Z.to_nat (linepos s)) (lineBuf s)))
    ++ next_codes m
         {| source := source s; lineBuf := lineBuf s;
            linepos := linepos s + Z.of_nat j; bufsize := bufsize s;
            EOF_flag := EOF_flag s; lineno := lineno s |}.
Proof.
  induction j as [|j IH]; intros s m Hpos Hj Hlen.
  - cbn [Nat.add firstn map app]. rewrite Z.add_0_r. now destruct s.
  - cbn [Nat.add next_codes]. unfold getNextChar.
    replace (linepos s <? bufsize s) with true
      by (symmetry; apply Z.ltb_lt; lia).
    cbn [negb]. rewrite IH; cbn [source lineBuf linepos bufsize EOF_flag lineno];
      try lia.
    rewrite (skipn_nth (lineBuf s) (Z.to_nat (linepos s))) by lia.
    cbn [firstn map app]. unfold char_at.
    replace (Z.to_nat (linepos s + 1)) with (S (Z.to_nat (linepos s))) by lia.
    replace (linepos s + 1 + Z.of_nat j) with (linepos s + Z.of_nat (S j))
      by lia.
    reflexivity.
Qed.

Lemma getNextChar_same_text s s' :
  same_text s s' ->
  fst (getNextChar s) = fst (getNextChar s') /\
  same_text (snd (getNextChar s)) (snd (getNextChar s')).
Proof.
  intros [Hsrc [[H1 H2]|(Hl & Hp & Hb)]]; unfold getNextChar.
  - replace (linepos s <? bufsize s) with false
      by (symmetry; apply Z.ltb_ge; lia).
    replace (linepos s' <? bufsize s') with false
      by (symmetry; apply Z.ltb_ge; lia).
    cbn [negb]. unfold refill. rewrite <- Hsrc.
    destruct (fgets (BUFLEN - 1) (source s)) as [[line rest]|];
      cbn [fst snd]; (split; [reflexivity|]); unfold same_text;
      cbn [source lineBuf linepos bufsize].
    + split; [reflexivity|]. now right.
    + split; [congruence|]. now left.
  - rewrite <- Hp, <- Hb, <- Hl.
    destruct (linepos s <? bufsize s); cbn [negb].
    + cbn [fst snd]. split; [reflexivity|]. unfold same_text.
      cbn [source lineBuf linepos bufsize]. split; [congruence|].
      right. repeat split; congruence.
    + unfold refill. rewrite <- Hsrc.
      destruct (fgets (BUFLEN - 1) (source s)) as [[line rest]|];
        cbn [fst snd]; (split; [reflexivity|]); unfold same_text;
        cbn [source lineBuf linepos bufsize].
      * split; [reflexivity|]. now right.
      * split; [congruence|]. right. repeat split; congruence.
Qed.

Lemma next_codes_same_text n : forall s s',
  same_text s s' -> next_codes n s = next_codes n s'.
Proof.
  induction n as [|n IH]; intros s s' H; [reflexivity|].
  destruct (getNextChar_same_text s s' H) as [Hc Hs].
  cbn [next_codes].
  destruct (getNextChar s) as [c s1], (getNextChar s') as [c' s1'].
  cbn [fst snd] in *. subst c'. f_equal. now apply IH.
Qed.

(** X23. A NUL character hides the rest of its line: on a line that starts
    with characters other than NUL and then holds a NUL, getNextChar
    returns the values (those of signed [char]) of the characters before
    the NUL, and then goes on with the next line; the NUL and the
    characters after it on the line, newline included, are not
    delivered. *)
Theorem NUL_hides_rest_of_line pre post rest k :
  pre <> [] ->
  nul_free pre = true ->
  no_newline pre = true ->
  no_newline post = true ->
  (length pre + 1 + length post < 254)%nat ->
  nul_free rest = true ->
  next_codes (length pre + (length rest + k))
    (initial_scanner (pre ++ NUL :: post ++ newline :: rest))
  = map int_of_char pre ++ map int_of_char rest ++ repeat EOF k.
Proof.
  intros Hne Hnf Hnl1 Hnl2 Hlen Hrest.
  destruct pre as [|c pre]; [now contradiction Hne|].
  set (line := (c :: pre) ++ NUL :: post ++ [newline]).
  assert (Hf : fgets (BUFLEN - 1) ((c :: pre) ++ NUL :: post ++ newline :: rest)
               = Some (line, rest)).
  { cbn [app fgets]. f_equal.
    change (Z.to_nat (BUFLEN - 1 - 1)) with 254%nat.
    change (c :: pre ++ NUL :: post ++ newline :: rest)
      with ((c :: pre) ++ (NUL :: post) ++ newline :: rest).
    rewrite app_assoc, read_line_newline.
    - unfold line. now rewrite <- app_assoc.
    - unfold no_newline in *. rewrite forallb_app, Hnl1.
      cbn [forallb andb]. exact Hnl2.
    - rewrite length_app. cbn [length] in *. lia. }
  assert (Hsl : strlen line = Z.of_nat (length (c :: pre)))
    by (apply strlen_app_NUL; exact Hnf).
  cbn [length Nat.add next_codes]. unfold getNextChar at 1.
  cbn [initial_scanner linepos bufsize negb Z.ltb Z.compare].
  unfold refill. cbn [source initial_scanner]. rewrite Hf.
  cbn [map app]. f_equal.
  rewrite next_codes_line;
    cbn [source lineBuf linepos bufsize EOF_flag lineno initial_scanner];
    [| lia | rewrite Hsl; cbn [length]; lia
     | rewrite Hsl; unfold line; rewrite length_app; cbn [length]; lia].
  change (Z.to_nat (0 + 1)) with 1%nat. unfold line at 1.
  cbn [app skipn]. rewrite firstn_app, firstn_all, Nat.sub_diag.
  cbn [firstn]. rewrite app_nil_r. f_equal.
  rewrite (next_codes_same_text _ _ (initial_scanner rest)).
  - apply next_codes_presents. now apply wf_initial.
  - unfold same_text. cbn [source lineBuf linepos bufsize initial_scanner].
    split; [reflexivity|]. left. rewrite Hsl. cbn [length]. lia.
Qed.

Lemma NUL_hides_rest_of_line_witness :
  next_codes (length ["a"%char; "233"%char] + (length (lit "z") + 1))
    (initial_scanner
       (["a"%char; "233"%char] ++ NUL :: lit "cd" ++ newline :: lit "z"))
  = map int_of_char ["a"%char; "233"%char] ++ map int_of_char (lit "z")
    ++ repeat EOF 1.
Proof.
  refine (NUL_hides_rest_of_line ["a"%char; "233"%char] (lit "cd") (lit "z") 1
            _ _ _ _ _ _); try reflexivity.
  - discriminate.
  - simpl; lia.
Defined.

(** * The scanner only moves forward *)






(** * The byte 255 *)

(** X25. The byte 255 is read as EOF: after white space and comments, a
    byte 255 makes getToken return the end-of-file token, with an empty
    lexeme, although the input is not at its end; exactly that byte is
    consumed, and what follows it is still to be delivered. *)
Theorem byte_255_read_as_EOF MAXTOKENLEN s pre rest fuel :
  presents s (pre ++ "255"%char :: rest) ->
  is_blank false pre = true ->
  (length pre + 1 <= fuel)%nat ->
  exists s',
    getToken MAXTOKENLEN fuel s = Some (ENDFILE, [], s') /\
    presents s' rest.
Proof.
  intros Hs Hb Hf.
  apply (getToken_after_blank MAXTOKENLEN s pre ("255"%char :: rest) fuel 1);
    try assumption.
  reflexivity.
Qed.

Lemma byte_255_read_as_EOF_witness :
  exists s',
    getToken sample_MAXTOKENLEN 5
      (initial_scanner (lit "{c} " ++ "255"%char :: lit "x"))
    = Some (ENDFILE, [], s') /\
    presents s' (lit "x").
Proof.
  refine (byte_255_read_as_EOF sample_MAXTOKENLEN
            (initial_scanner (lit "{c} " ++ "255"%char :: lit "x"))
            (lit "{c} ") (lit "x") 5 _ _ _).
  - unfold presents, wf, remaining; simpl.
    repeat split; try lia; try reflexivity; discriminate.
  - reflexivity.
  - simpl; lia.
Defined.
